(** * Activity-log tasklist: the update-queue sequencer

    A shallow embedding of the [ActivityLogTasklist] React component and of
    the status helpers that feed it ([getNormalizedStatus],
    [getStatusForCore], [getStatusForTheme]).

    Conventions of the embedding.

    - JavaScript objects live in a store indexed by references; two
      references are the same object exactly when they are equal.  lodash's
      [union] compares array elements with SameValueZero, which on objects
      is reference equality and on strings is string equality.
    - The component instance is a record holding the store, the current
      props, [this.state] and the chronological log of the calls it made to
      its collaborators (redux dispatches, http requests, [window.confirm],
      the router).
    - [this.setState] does not write [this.state] at once.  The calls made
      while an event handler or a lifecycle method runs are recorded; when
      it has returned, React merges the partial states in call order and
      then calls the callbacks in call order.  A method called on its own
      (a click handler) is such an update with one [setState] call, and
      [componentDidUpdate] is one with as many calls as its loop makes.
    - The render that follows an update calls [componentDidUpdate] with
      the props it already had.  That call is a [componentDidUpdate] of
      its own here ([MComponentDidUpdate (props c)]); React makes it
      between the merge and the callbacks, and on candidate lists with one
      item per slug it does nothing. *)

From stdpp Require Import base list strings pretty gmap.

(** ** lodash *)

Module Lodash.
Section uniq.
Context {A : Type} `{EqDecision A}.

(** One step of [baseUniq]: keep a value unless the result holds it. *)
Definition uniq_step (result : list A) (x : A) : list A :=
  if decide (x ∈ result) then result else result ++ [x].

(** [_.uniq]: first occurrences, in order. *)
Definition uniq (l : list A) : list A := fold_left uniq_step l [].

(** [_.union (a1, ..., an)]: [baseUniq (baseFlatten (arrays, 1))]. *)
Definition union (arrays : list (list A)) : list A := uniq (concat arrays).

(** [_.includes (collection, value)] on an array. *)
Definition includes (l : list A) (x : A) : bool := bool_decide (x ∈ l).

(** [array.slice (1)]. *)
Definition slice1 (l : list A) : list A := drop 1 l.

(** [_.isEmpty] on an array. *)
Definition isEmpty (l : list A) : bool :=
  match l with [] => true | _ => false end.
End uniq.
End Lodash.

Import Lodash.

(** ** Objects and the store *)

(** A reference to a JavaScript object. *)
Definition ref := nat.

(** The properties the component reads or writes on an item.  [slug] is
    [None] when the object has no [slug] property (the click event that the
    "Dismiss all" menu entry passes to [dismiss]); [updateStatus] is [None]
    for [false] and [Some s] for [{ status: s }]; [from] is [None] until
    [enqueue] writes it. *)
Record Obj := mkObj {
  slug : option string;
  type : string;
  name : string;
  updateStatus : option string;
  from : option string;
}.

Definition Store := ref -> Obj.

Definition set_from (f : string) (o : Obj) : Obj :=
  {| slug := slug o; type := type o; name := name o;
     updateStatus := updateStatus o; from := Some f |}.

(** [item.from = from] *)
Definition store_set_from (item : ref) (f : string) (h : Store) : Store :=
  fun r => if decide (r = item) then set_from f (h r) else h r.

(** A value interpolated in a template literal. *)
Definition interp (v : option string) : string := default "undefined" v.

(** ** Numbers in template literals *)

(** The Number value of a non-negative integer: the nearest double, ties to
    an even mantissa; [None] is [Infinity]. *)
Definition toNumber (n : N) : option N :=
  if (n <? 2 ^ 53)%N then Some n
  else
    let e := (N.log2 n - 52)%N in
    let q := N.shiftr n e in
    let r := (n - N.shiftl q e)%N in
    let half := (2 ^ (e - 1))%N in
    let m := if (r <? half)%N then q
             else if (half <? r)%N then (q + 1)%N
             else if N.even q then q else (q + 1)%N in
    let x := N.shiftl m e in
    if (2 ^ 1024 <=? x)%N then None else Some x.

(** The integer nearest to [x / p], ties to even. *)
Definition nearest (x p : N) : N :=
  let q := (x / p)%N in
  let r := (x mod p)%N in
  if (2 * r <? p)%N then q
  else if (p <? 2 * r)%N then (q + 1)%N
  else if N.even q then q else (q + 1)%N.

(** The digits [s] and the exponent [t] of the shortest decimal [s * 10^t]
    whose double lies in the rounding interval of [x], given by its doubled
    bounds [lower2] and [upper2]; the closest one when there are several. *)
Fixpoint shortestDecimal (t : nat) (x lower2 upper2 : N) (inclusive : bool) : N * nat :=
  let p := (10 ^ N.of_nat t)%N in
  let lo := N.max 1 (if inclusive then ((lower2 + 2 * p - 1) / (2 * p))%N
                     else (lower2 / (2 * p) + 1)%N) in
  let hi := if inclusive then (upper2 / (2 * p))%N
            else ((upper2 - 1) / (2 * p))%N in
  if (lo <=? hi)%N then (N.min hi (N.max lo (nearest x p)), t)
  else match t with
       | O => (x, O)
       | S t' => shortestDecimal t' x lower2 upper2 inclusive
       end.

(** [Number::toString] of a finite double [x] that is an integer of at
    least 2^53. *)
Definition largeToString (x : N) : string :=
  let e := (N.log2 x - 52)%N in
  let m := N.shiftr x e in
  let upper2 := (2 * x + 2 ^ e)%N in
  let lower2 := (2 * x - (if (m =? 2 ^ 52)%N then 2 ^ (e - 1) else 2 ^ e))%N in
  let '(s, t) := shortestDecimal (String.length (pretty x)) x lower2 upper2 (N.even m) in
  let digits := pretty s in
  let n := (String.length digits + t)%nat in
  if bool_decide (n ≤ 21)%nat then digits +:+ String.concat "" (replicate t "0")
  else
    match digits with
    | String d "" => String d ("e+" +:+ pretty (n - 1)%nat)
    | String d rest => String d ("." +:+ rest +:+ "e+" +:+ pretty (n - 1)%nat)
    | "" => ""
    end.

(** What a template literal prints for the number [n]. *)
Definition numberToString (n : N) : string :=
  match toNumber n with
  | None => "Infinity"
  | Some x => if (x <? 2 ^ 53)%N then pretty x else largeToString x
  end.

(** ** Collaborators *)

(** [translate (template, { args: { item, siteName } })] *)
Record Text := mkText {
  template : string;
  args : option (string * string);
}.

(** The [onClick] closure of a notice: [() => this.enqueue (item, from)]. *)
Inductive Click :=
  | ClickEnqueue (item : ref) (from : string).

(** Redux actions built by [mapDispatchToProps]. *)
Inductive Action :=
  | RecordTracksEvent (event : string) (slugProp : option (option string))
  | UpdatePlugin (siteId : N) (item : ref)
  | InfoNotice (text : Text) (id : string) (showDismiss : bool)
  | ErrorNotice (text : Text) (id : string) (button : Text) (onClick : Click)
  | SuccessNotice (text : Text) (id : string) (duration : N).

(** What the component does to the outside world. *)
Inductive Effect :=
  | Dispatch (a : Action)
  | RequestHttpData (key : string) (method : string) (path : string)
                    (body : option (string * option string))
  | PageExit (path : string)
  | WindowConfirm (message : Text)
  | Next
  | SetTimeoutPageReplace (path : string) (delay : N).

(** ** The component *)

Record Props := mkProps {
  siteId : N;
  siteSlug : string;
  siteName : string;
  coreWithUpdate : list ref;
  pluginWithUpdate : list ref;
  themeWithUpdate : list ref;
}.

Record State := mkState {
  dismissed : list (option string);
  queued : list ref;
}.

Record Comp := mkComp {
  heap : Store;
  props : Props;
  state : State;
  log : list Effect;
}.

(** [state = { dismissed: [], queued: [] }] *)
Definition initialState : State := {| dismissed := []; queued := [] |}.

Definition mount (h : Store) (p : Props) : Comp :=
  {| heap := h; props := p; state := initialState; log := [] |}.

Definition emit (e : Effect) (c : Comp) : Comp :=
  {| heap := heap c; props := props c; state := state c; log := log c ++ [e] |}.

Definition with_heap (h : Store) (c : Comp) : Comp :=
  {| heap := h; props := props c; state := state c; log := log c |}.

Definition with_props (p : Props) (c : Comp) : Comp :=
  {| heap := heap c; props := p; state := state c; log := log c |}.

Definition with_state (s : State) (c : Comp) : Comp :=
  {| heap := heap c; props := props c; state := s; log := log c |}.

(** *** [this.setState] *)

(** A call of [this.setState]: [this.setState ({ queued: q }, callback)]
    or [this.setState ({ dismissed: d })]. *)
Inductive SetState :=
  | SetQueued (q : list ref) (callback : Comp -> Comp)
  | SetDismissed (d : list (option string)).

(** The partial state merged into [this.state]. *)
Definition mergeState (s : State) (u : SetState) : State :=
  match u with
  | SetQueued q _ => {| dismissed := dismissed s; queued := q |}
  | SetDismissed d => {| dismissed := d; queued := queued s |}
  end.

Definition callbackOf (u : SetState) : Comp -> Comp :=
  match u with
  | SetQueued _ callback => callback
  | SetDismissed _ => fun c => c
  end.

(** An event handler or lifecycle method in progress: the instance, whose
    [this.state] is still the committed one, and the [setState] calls made
    so far. *)
Record Batch := mkBatch {
  instance : Comp;
  pending : list SetState;
}.

Definition batch (c : Comp) : Batch := {| instance := c; pending := [] |}.

(** [this.setState (...)] inside the handler: the call is recorded. *)
Definition setState (u : SetState) (b : Batch) : Batch :=
  {| instance := instance b; pending := pending b ++ [u] |}.

(** A call that acts at once (a dispatch, a write to an object). *)
Definition perform (f : Comp -> Comp) (b : Batch) : Batch :=
  {| instance := f (instance b); pending := pending b |}.

(** The handler has returned: the partial states are merged in call order,
    then the callbacks are called in call order. *)
Definition commit (b : Batch) : Comp :=
  fold_left (fun c u => callbackOf u c) (pending b)
    (fold_left (fun c u => with_state (mergeState (state c) u) c) (pending b)
               (instance b)).

(** A handler or lifecycle method run as one React update. *)
Definition update (body : Batch -> Batch) (c : Comp) : Comp := commit (body (batch c)).

(** The effects a transition appended to the log. *)
Definition emitted (f : Comp -> Comp) (c : Comp) : list Effect :=
  drop (length (log c)) (log (f c)).

(** *** Module-level helpers *)

(** [s.some (p => 'inProgress' === get (p, 'updateStatus.status'))] *)
Definition isItemUpdating (h : Store) (s : list ref) : bool :=
  existsb (fun p => bool_decide (updateStatus (h p) = Some "inProgress")) s.

(** The predicate lodash builds from the source object [{ slug: g }]: strict
    equality on the property, and the property must exist when [g] is
    [undefined]. *)
Definition matchesSlug (g : option string) (o : Obj) : bool :=
  match g, slug o with
  | Some a, Some b => bool_decide (a = b)
  | _, _ => false
  end.

(** [find (q, { slug: g })] *)
Definition findBySlug (h : Store) (q : list ref) (g : option string) : option ref :=
  List.find (fun r => matchesSlug g (h r)) q.

(** [!! find (q, { slug: g })] *)
Definition isItemEnqueued (h : Store) (g : option string) (q : list ref) : bool :=
  bool_decide (is_Some (findBySlug h q g)).

(** *** mapDispatchToProps *)

(** [requestHttpData (key, http ({ method, path, body }), ...)]; the body
    of a theme update is [{ action, themes }], a core update has none. *)
Definition updateCore (siteId : N) : Effect :=
  RequestHttpData ("core-update-" +:+ numberToString siteId) "POST"
                  ("/sites/" +:+ numberToString siteId +:+ "/core/update") None.

Definition updateTheme (siteId : N) (themeId : option string) : Effect :=
  RequestHttpData ("theme-update-" +:+ numberToString siteId +:+ "-" +:+ interp themeId) "POST"
                  ("/sites/" +:+ numberToString siteId +:+ "/themes")
                  (Some ("update", themeId)).

(** The request [updateSingle (item)] issues. *)
Definition updateSingleRequest (h : Store) (p : Props) (item : ref) : Effect :=
  let o := h item in
  if decide ("core" = type o) then updateCore (siteId p)
  else if decide ("plugin" = type o) then Dispatch (UpdatePlugin (siteId p) item)
  else updateTheme (siteId p) (slug o).

Definition updateSingle (item : ref) (c : Comp) : Comp :=
  emit (updateSingleRequest (heap c) (props c) item) c.

Definition trackUpdate (item : ref) (c : Comp) : Comp :=
  let o := heap c item in
  emit (Dispatch (RecordTracksEvent
                    ("calypso_activitylog_tasklist_update_" +:+ type o +:+ interp (from o))
                    (Some (slug o)))) c.

Definition trackUpdateAll : Comp -> Comp :=
  emit (Dispatch (RecordTracksEvent "calypso_activitylog_tasklist_update_all" None)).

Definition trackDismissAll : Comp -> Comp :=
  emit (Dispatch (RecordTracksEvent "calypso_activitylog_tasklist_dismiss_all" None)).

Definition trackDismiss (item : ref) (c : Comp) : Comp :=
  let o := heap c item in
  emit (Dispatch (RecordTracksEvent
                    ("calypso_activitylog_tasklist_dismiss_" +:+ type o)
                    (Some (slug o)))) c.

Definition showInfoNotice (t : Text) (id : string) (showDismiss : bool) : Comp -> Comp :=
  emit (Dispatch (InfoNotice t id showDismiss)).

Definition showErrorNotice (t : Text) (id : string) (button : Text) (k : Click) : Comp -> Comp :=
  emit (Dispatch (ErrorNotice t id button k)).

Definition showSuccessNotice (t : Text) (id : string) (duration : N) : Comp -> Comp :=
  emit (Dispatch (SuccessNotice t id duration)).

(** *** Methods of [ActivityLogTasklist] *)

(** [union (coreWithUpdate, pluginWithUpdate, themeWithUpdate)] *)
Definition allUpdatableItems (p : Props) : list ref :=
  union [coreWithUpdate p; pluginWithUpdate p; themeWithUpdate p].

Definition noticeId (o : Obj) : string := "alitemupdate-" +:+ interp (slug o).

Definition updateItem (item : ref) (c : Comp) : Comp :=
  let c1 := trackUpdate item c in
  let c2 := updateSingle item c1 in
  let o := heap c2 item in
  showInfoNotice
    {| template := "Updating %(item)s on %(siteName)s.";
       args := Some (name o, siteName (props c2)) |}
    (noticeId o) false c2.

Definition continueQueue (c : Comp) : Comp :=
  if bool_decide (0 < length (queued (state c)))
     && negb (isItemUpdating (heap c) (allUpdatableItems (props c)))
  then match queued (state c) with
       | item :: _ => updateItem item c
       | [] => c
       end
  else c.

(** The methods that call [this.setState], as they run inside a handler:
    [this.state] is read from the instance, which no [setState] call of the
    same handler has written yet. *)
Module Body.

Definition enqueue (item : ref) (from : string) (b : Batch) : Batch :=
  let b1 := perform (fun c => with_heap (store_set_from item from (heap c)) c) b in
  setState (SetQueued (union [queued (state (instance b1)); [item]]) continueQueue) b1.

Definition dequeue (b : Batch) : Batch :=
  setState (SetQueued (slice1 (queued (state (instance b)))) continueQueue) b.

Definition updateAll (b : Batch) : Batch :=
  let b1 := perform trackUpdateAll b in
  let c1 := instance b1 in
  setState
    (SetQueued (union [queued (state c1); coreWithUpdate (props c1);
                       pluginWithUpdate (props c1); themeWithUpdate (props c1)])
               continueQueue) b1.

Definition dismiss (item : ref) (b : Batch) : Batch :=
  let c := instance b in
  match slug (heap c item) with
  | Some s =>
      let b1 := perform (trackDismiss item) b in
      setState (SetDismissed (union [dismissed (state (instance b1)); [Some s]])) b1
  | None =>
      let items :=
        union [((fun p => slug (heap c p)) <$> coreWithUpdate (props c));
               ((fun p => slug (heap c p)) <$> pluginWithUpdate (props c));
               ((fun p => slug (heap c p)) <$> themeWithUpdate (props c))] in
      let b1 := perform trackDismissAll b in
      setState (SetDismissed (union [dismissed (state (instance b1)); items])) b1
  end.

End Body.

(** The same methods called on their own, as a click handler does: one
    React update each. *)
Definition enqueue (item : ref) (from : string) : Comp -> Comp :=
  update (Body.enqueue item from).

Definition dequeue : Comp -> Comp := update Body.dequeue.

Definition updateAll : Comp -> Comp := update Body.updateAll.

Definition dismiss (item : ref) : Comp -> Comp := update (Body.dismiss item).

(** What a click on a notice button runs. *)
Definition click (k : Click) : Comp -> Comp :=
  match k with ClickEnqueue item from => enqueue item from end.

(** *** Navigation guard *)

Definition activityPath (p : Props) : string := "/stats/activity/" +:+ siteSlug p.

Definition leaveMessage : Text :=
  {| template := "Navigating away will cancel remaining updates"; args := None |}.

(** [componentDidMount]: registers the exit handler on the activity route. *)
Definition componentDidMount (c : Comp) : Comp :=
  emit (PageExit (activityPath (props c))) c.

(** The handler given to [page.exit].  [confirmed] is what [window.confirm]
    returns if it is called. *)
Definition exitHandler (confirmed : bool) (c : Comp) : Comp :=
  if bool_decide (length (queued (state c)) = 0) then emit Next c
  else
    let c1 := emit (WindowConfirm leaveMessage) c in
    if confirmed then emit Next c1
    else emit (SetTimeoutPageReplace (activityPath (props c1)) 0) c1.

(** *** Reconciliation *)

(** [prevProps[ key ]] for the keys that hold arrays of items. *)
Definition propsLookup (p : Props) (key : string) : option (list ref) :=
  if decide (key = "coreWithUpdate") then Some (coreWithUpdate p)
  else if decide (key = "pluginWithUpdate") then Some (pluginWithUpdate p)
  else if decide (key = "themeWithUpdate") then Some (themeWithUpdate p)
  else None.

(** [find (prevProps[ `${ type }WithUpdate` ], { slug })] *)
Definition prevItemWithUpdate (h : Store) (prevProps : Props) (o : Obj) : option ref :=
  propsLookup prevProps (type o +:+ "WithUpdate") ≫= fun l => findBySlug h l (slug o).

Definition noticeArgs (o : Obj) (p : Props) : option (string * string) :=
  Some (name o, siteName p).

Definition tryAgain : Text := {| template := "Try again"; args := None |}.

Definition errorText (o : Obj) (p : Props) : Text :=
  {| template := "An error occurred while updating %(item)s on %(siteName)s.";
     args := noticeArgs o p |}.

Definition successText (o : Obj) (p : Props) : Text :=
  {| template := "Successfully updated %(item)s on %(siteName)s.";
     args := noticeArgs o p |}.

(** [componentDidUpdate] and its iteratee, as they run: every [dismiss] and
    [dequeue] of one call reads the same [this.state]. *)
Module Refresh.

(** The [switch (updateStatus.status)] of the iteratee. *)
Definition reconcileSwitch (item : ref) (b : Batch) : Batch :=
  let c := instance b in
  let o := heap c item in
  match updateStatus o with
  | Some s =>
      if decide (s = "error") then
        Body.dequeue
          (perform (showErrorNotice (errorText o (props c)) (noticeId o) tryAgain
                                    (ClickEnqueue item "_from_error")) b)
      else if decide (s = "completed") then
        Body.dequeue
          (Body.dismiss item
             (perform (showSuccessNotice (successText o (props c)) (noticeId o) 3000) b))
      else b
  | None => b
  end.

(** The iteratee of [each (itemsWithUpdate, item => ...)]. *)
Definition reconcileItem (prevProps : Props) (b : Batch) (item : ref) : Batch :=
  let c := instance b in
  let o := heap c item in
  match prevItemWithUpdate (heap c) prevProps o ≫= fun p => updateStatus (heap c p) with
  | None => b
  | Some prevStatus =>
      if bool_decide (Some prevStatus = updateStatus o)
         || isItemUpdating (heap c) [item]
      then b
      else reconcileSwitch item b
  end.

Definition componentDidUpdate (prevProps : Props) (b : Batch) : Batch :=
  let itemsWithUpdate := allUpdatableItems (props (instance b)) in
  if isEmpty itemsWithUpdate then b
  else fold_left (reconcileItem prevProps) itemsWithUpdate b.

End Refresh.

(** [componentDidUpdate (prevProps)] as React calls it: one update. *)
Definition componentDidUpdate (prevProps : Props) : Comp -> Comp :=
  update (Refresh.componentDidUpdate prevProps).

(** The iteratee on one item alone: what [componentDidUpdate] does when
    [item] is the only candidate. *)
Definition reconcileItem (prevProps : Props) (c : Comp) (item : ref) : Comp :=
  update (fun b => Refresh.reconcileItem prevProps b item) c.

(** *** Rendering *)

(** The items [render] shows. *)
Definition itemsToUpdate (c : Comp) : list ref :=
  filter (fun item => negb (includes (dismissed (state c)) (slug (heap c item))))
         (allUpdatableItems (props c)).

(** *** Calls on the component *)

Inductive Method :=
  | MEnqueue (item : ref) (from : string)
  | MDequeue
  | MContinueQueue
  | MUpdateItem (item : ref)
  | MUpdateAll
  | MDismiss (item : ref)
  | MComponentDidUpdate (prevProps : Props).

Definition invoke (m : Method) : Comp -> Comp :=
  match m with
  | MEnqueue item from => enqueue item from
  | MDequeue => dequeue
  | MContinueQueue => continueQueue
  | MUpdateItem item => updateItem item
  | MUpdateAll => updateAll
  | MDismiss item => dismiss item
  | MComponentDidUpdate prevProps => componentDidUpdate prevProps
  end.

(** The calls that change the queue by one item. *)
Inductive QueueCall :=
  | Enq (item : ref) (from : string)
  | Deq.

Definition queueMethod (q : QueueCall) : Method :=
  match q with Enq item from => MEnqueue item from | Deq => MDequeue end.

Definition run (calls : list QueueCall) (c : Comp) : Comp :=
  fold_left (fun c q => invoke (queueMethod q) c) calls c.

(** The number of [enqueue] calls and of [dequeue] calls. *)
Fixpoint enqueues (calls : list QueueCall) : nat :=
  match calls with
  | [] => 0
  | Enq _ _ :: rest => S (enqueues rest)
  | Deq :: rest => enqueues rest
  end.

Fixpoint dequeues (calls : list QueueCall) : nat :=
  match calls with
  | [] => 0
  | Enq _ _ :: rest => dequeues rest
  | Deq :: rest => S (dequeues rest)
  end.

(** The items passed to [enqueue], in call order. *)
Definition enqueuedItems (calls : list QueueCall) : list ref :=
  omap (fun q => match q with Enq item _ => Some item | Deq => None end) calls.

(** Every [enqueue] passes an object that is not in the queue and every
    [dequeue] finds the queue non-empty, starting from the queue [q]. *)
Fixpoint disciplined (q : list ref) (calls : list QueueCall) : bool :=
  match calls with
  | [] => true
  | Enq item _ :: rest => bool_decide (item ∉ q) && disciplined (q ++ [item]) rest
  | Deq :: rest => negb (isEmpty q) && disciplined (slice1 q) rest
  end.

(** ** Update status of themes and core *)

(** What [getHttpData] returns, as far as the status helpers read it:
    [state], and whether [data.themes.0.update] is [null]. *)
Record HttpData := mkHttpData {
  httpState : string;
  themeUpdateIsNull : bool;
}.

Definition getNormalizedStatus (state : string) (isUpdateComplete : bool) : option string :=
  if decide ("pending" = state) then Some "inProgress"
  else if decide ("failure" = state) then Some "error"
  else if decide ("success" = state) then
    if isUpdateComplete then Some "completed" else Some "error"
  else None.

Section http_data.
(** The http-data store of the data layer. *)
Variable getHttpData : string -> HttpData.

Definition getStatusForTheme (siteId : N) (themeId : option string) : option string :=
  let httpData := getHttpData ("theme-update-" +:+ numberToString siteId +:+ "-" +:+ interp themeId) in
  let isThemeUpdateComplete := themeUpdateIsNull httpData in
  getNormalizedStatus (httpState httpData) isThemeUpdateComplete.

Definition getStatusForCore (siteId : N) : option string :=
  let httpData := getHttpData ("core-update-" +:+ numberToString siteId) in
  let isCoreUpdateComplete := false in
  getNormalizedStatus (httpState httpData) isCoreUpdateComplete.
End http_data.

(** ** A site used in the examples *)

Definition exampleStore : Store := fun r =>
  match r with
  | 0 => mkObj (Some "wordpress") "core" "WordPress" None None
  | 1 => mkObj (Some "akismet") "plugin" "Akismet" None None
  | 2 => mkObj (Some "dara") "theme" "Dara" None None
  | 3 => mkObj (Some "akismet") "plugin" "Akismet" (Some "inProgress") None
  | 4 => mkObj (Some "akismet") "plugin" "Akismet" (Some "completed") None
  | 5 => mkObj (Some "akismet") "plugin" "Akismet" (Some "error") None
  | _ => mkObj None "" "" None None
  end.

Definition exampleProps (plugins : list ref) : Props :=
  {| siteId := 7; siteSlug := "example.com"; siteName := "Example";
     coreWithUpdate := [0]; pluginWithUpdate := plugins; themeWithUpdate := [2] |}.

Definition exampleComp : Comp := mount exampleStore (exampleProps [1]).

(** The three effects of [updateItem]. *)
Definition updateItemEffects (h : Store) (p : Props) (item : ref) : list Effect :=
  [Dispatch (RecordTracksEvent
               ("calypso_activitylog_tasklist_update_" +:+ type (h item)
                  +:+ interp (from (h item)))
               (Some (slug (h item))));
   updateSingleRequest h p item;
   Dispatch (InfoNotice {| template := "Updating %(item)s on %(siteName)s.";
                           args := Some (name (h item), siteName p) |}
                        (noticeId (h item)) false)].

(** An effect that starts an update. *)
Definition isUpdateRequest (e : Effect) : bool :=
  match e with
  | Dispatch (UpdatePlugin _ _) => true
  | RequestHttpData _ _ _ _ => true
  | _ => false
  end.

(** The candidate items of the current props. *)
Definition candidate (c : Comp) (r : ref) : Prop :=
  r ∈ coreWithUpdate (props c) ∨ r ∈ pluginWithUpdate (props c)
  ∨ r ∈ themeWithUpdate (props c).

Definition inProgress (c : Comp) (r : ref) : Prop :=
  updateStatus (heap c r) = Some "inProgress".

(** The guard of [continueQueue]: the queue is not empty and no candidate
    is in progress. *)
Definition ready (c : Comp) : Prop :=
  queued (state c) ≠ [] ∧ ∀ r, candidate c r → ¬ inProgress c r.

(** What [continueQueue] sends out: the effects of [updateItem] on the head
    of the queue when the guard holds, nothing otherwise. *)
Definition nextDispatch (c : Comp) : list Effect :=
  if bool_decide (0 < length (queued (state c)))
     && negb (isItemUpdating (heap c) (allUpdatableItems (props c)))
  then match queued (state c) with
       | item :: _ => updateItemEffects (heap c) (props c) item
       | [] => []
       end
  else [].

(** The slugs of all candidates, as [dismiss] collects them. *)
Definition candidateSlugs (c : Comp) : list (option string) :=
  union [((fun p => slug (heap c p)) <$> coreWithUpdate (props c));
         ((fun p => slug (heap c p)) <$> pluginWithUpdate (props c));
         ((fun p => slug (heap c p)) <$> themeWithUpdate (props c))].

(** The tracking events of [dismiss]. *)
Definition dismissOneEvent (o : Obj) : Effect :=
  Dispatch (RecordTracksEvent ("calypso_activitylog_tasklist_dismiss_" +:+ type o)
                              (Some (slug o))).

Definition dismissAllEvent : Effect :=
  Dispatch (RecordTracksEvent "calypso_activitylog_tasklist_dismiss_all" None).

(** Some candidate is in progress. *)
Definition blocked (c : Comp) : Prop := ∃ r, candidate c r ∧ inProgress c r.

(** The update requests sent so far. *)
Definition requests (c : Comp) : list Effect := filter isUpdateRequest (log c).

(** The instance after [enqueue (1)] on the example site, and the same
    instance after the props were refreshed with a new plugin list. *)
Definition exampleQueued : Comp := enqueue 1 "" exampleComp.

Definition exampleRefreshed (plugins : list ref) : Comp :=
  with_props (exampleProps plugins) exampleQueued.

(** A transition that keeps a blocked instance blocked and sends no update
    request from it. *)
Definition quiet (F : Comp → Comp) : Prop :=
  ∀ c, blocked c → blocked (F c) ∧ requests (F c) = requests c.

(** ** What [render] builds *)

(** The heading: [translate ('You have one update available')], or the
    plural form with [count] and [args.updates] set to the number of
    updates. *)
Inductive Heading :=
  | HeadingOne
  | HeadingCount (count : nat).

(** The handlers the card hands to its children. *)
Inductive Handler :=
  | OnUpdateAll
  | OnGoManagePlugins
  | OnDismiss.

(** The [SplitButton] with its two [PopoverMenuItem]s. *)
Record SplitButton := mkSplitButton {
  buttonLabel : Text;
  buttonOnClick : Handler;
  buttonDisabled : bool;
  buttonMenu : list (Text * Handler);
}.

(** The props of one [ActivityLogTaskUpdate]; [version], which [render]
    only passes through, is not part of [Obj] and is left out. *)
Record TaskUpdate := mkTaskUpdate {
  toUpdate : ref;
  taskName : string;
  taskSlug : option string;
  taskType : string;
  updateType : Text;
  linked : bool;
  disable : bool;
}.

Record Card := mkCard {
  heading : Heading;
  splitButton : option SplitButton;
  taskUpdates : list TaskUpdate;
}.

Definition plainText (s : string) : Text := {| template := s; args := None |}.

(** The [updateType] label of an item. *)
Definition updateTypeOf (o : Obj) : Text :=
  if decide ("theme" = type o) then plainText "Theme update available"
  else if decide ("core" = type o) then plainText "Core update available"
  else plainText "Plugin update available".

Definition taskUpdateOf (c : Comp) (item : ref) : TaskUpdate :=
  let o := heap c item in
  {| toUpdate := item; taskName := name o; taskSlug := slug o; taskType := type o;
     updateType := updateTypeOf o;
     linked := negb (bool_decide ("core" = type o));
     disable := isItemEnqueued (heap c) (slug o) (queued (state c)) |}.

(** [render ()]: [None] is [null]. *)
Definition render (c : Comp) : option Card :=
  let items := itemsToUpdate c in
  if isEmpty items then None
  else
    let numberOfUpdates := length items in
    Some {| heading := if bool_decide (1 < numberOfUpdates)
                       then HeadingCount numberOfUpdates else HeadingOne;
            splitButton :=
              if bool_decide (1 < numberOfUpdates)
              then Some {| buttonLabel := plainText "Update all";
                           buttonOnClick := OnUpdateAll;
                           buttonDisabled := bool_decide (0 < length (queued (state c)));
                           buttonMenu := [(plainText "Manage plugins", OnGoManagePlugins);
                                          (plainText "Dismiss all", OnDismiss)] |}
              else None;
            taskUpdates := taskUpdateOf c <$> items |}.

(** ** Sequences of method calls *)

Definition runMethods (ms : list Method) (c : Comp) : Comp :=
  fold_left (fun c m => invoke m c) ms c.

(** The objects passed to [enqueue] in a sequence of calls. *)
Definition enqueueArguments (ms : list Method) : list ref :=
  omap (fun m => match m with MEnqueue item _ => Some item | _ => None end) ms.

(** ** Well-formed candidate lists *)

(** Every item of the list has the given [type]. *)
Definition typedList (h : Store) (t : string) (l : list ref) : Prop :=
  ∀ r, r ∈ l → type (h r) = t.

(** No two objects of the list share a string slug. *)
Definition slugsDistinct (h : Store) (l : list ref) : Prop :=
  ∀ r r' s, r ∈ l → r' ∈ l → slug (h r) = Some s → slug (h r') = Some s → r = r'.

(** The three lists hold items of their own type, one per slug. *)
Definition wellFormed (h : Store) (p : Props) : Prop :=
  typedList h "core" (coreWithUpdate p)
  ∧ typedList h "plugin" (pluginWithUpdate p)
  ∧ typedList h "theme" (themeWithUpdate p)
  ∧ slugsDistinct h (coreWithUpdate p)
  ∧ slugsDistinct h (pluginWithUpdate p)
  ∧ slugsDistinct h (themeWithUpdate p).

(** No item of the three lists has an [updateStatus]. *)
Definition neverStarted (h : Store) (p : Props) : Prop :=
  ∀ r, r ∈ coreWithUpdate p ∨ r ∈ pluginWithUpdate p ∨ r ∈ themeWithUpdate p →
       updateStatus (h r) = None.

(** ** The http-data store after a write *)

(** The store [getHttpData] reads, with the entry under [key] replaced. *)
Definition withHttpData (key : string) (d : HttpData)
    (getHttpData : string → HttpData) : string → HttpData :=
  fun k => if decide (k = key) then d else getHttpData k.

(** The key of a [requestHttpData] effect. *)
Definition requestKey (e : Effect) : option string :=
  match e with
  | RequestHttpData key _ _ _ => Some key
  | _ => None
  end.

(** ** [mapStateToProps] *)

Module Connect.

(** An item as [WithItemsToUpdate] hands it in: the properties of [Obj] and
    the [id] that [getStatusForPlugin] is called with. *)
Record Item := mkItem {
  itemId : option string;
  itemObj : Obj;
}.

Definition set_updateStatus (status : option string) (item : Item) : Item :=
  {| itemId := itemId item;
     itemObj := {| slug := slug (itemObj item); type := type (itemObj item);
                   name := name (itemObj item); updateStatus := status;
                   from := from (itemObj item) |} |}.

(** What [getSite] returns, as far as [mapStateToProps] reads it. *)
Record Site := mkSite {
  site_slug : string;
  site_name : string;
}.

(** The props [mapStateToProps] computes. *)
Record StateProps := mkStateProps {
  siteId : N;
  siteSlug : string;
  siteName : string;
  pluginWithUpdate : list Item;
  themeWithUpdate : list Item;
  coreWithUpdate : list Item;
}.

Section connect.
(** The app state tree and the selectors that read it. *)
Context {AppState : Type}.
Variable getStatusForPlugin : option AppState → N → option string → option string.
Variable getSite : AppState → N → Site.
Variable getHttpData : string → HttpData.

(** [state] defaults to [null], here [None]. *)
Definition makeUpdatableList (itemList : list Item) (siteId : N)
    (state : option AppState) : list Item :=
  (fun item =>
     set_updateStatus
       (if decide ("plugin" = type (itemObj item))
        then getStatusForPlugin state siteId (itemId item)
        else getStatusForTheme getHttpData siteId (slug (itemObj item)))
       item) <$> itemList.

Definition mapStateToProps (state : AppState) (siteId : N)
    (plugins themes core : list Item) : StateProps :=
  let site := getSite state siteId in
  {| siteId := siteId;
     siteSlug := site_slug site;
     siteName := site_name site;
     pluginWithUpdate := makeUpdatableList plugins siteId (Some state);
     themeWithUpdate := makeUpdatableList themes siteId None;
     coreWithUpdate :=
       match core with
       | [] => []
       | core0 :: _ => [set_updateStatus (getStatusForCore getHttpData siteId) core0]
       end |}.
End connect.
End Connect.

(** ** The onboarding checklist *)

Module Checklist.

(** A JavaScript value held in a task object: a string, a boolean, a
    number, [null], or some object or array. *)
Inductive Value :=
  | VString (s : string)
  | VBool (b : bool)
  | VNumber (n : Z)
  | VNull
  | VObject.

Global Instance Value_eq_dec : EqDecision Value.
Proof. solve_decision. Defined.

(** Truthiness of a property; [None] is [undefined]. *)
Definition truthy (v : option Value) : bool :=
  match v with
  | Some (VString s) => negb (bool_decide (s = ""))
  | Some (VBool b) => b
  | Some (VNumber n) => negb (bool_decide (n = 0%Z))
  | Some VObject => true
  | Some VNull | None => false
  end.

(** An object with string keys. *)
Abbreviation TaskObj := (gmap string Value).

(** What is handed to [translate]: one text, or the singular and plural
    forms with [count] (also the only argument). *)
Inductive Phrase :=
  | Plain (text : string)
  | Plural (singular plural : string) (count : Z).

(** What the calls of [launchTask] do. *)
Inductive Call :=
  | Page (url : string)
  | Track (event : string) (checklist_name : string) (step_name : option Value)
          (location : string)
  | RequestTour (tour : Value).

Definition isTrack (c : Call) : bool :=
  match c with Track _ _ _ _ => true | _ => false end.

(** The checklist received from the server; [None] for a falsy [tasks]. *)
Record ChecklistData := mkChecklist {
  serverTasks : option (gmap string TaskObj);
}.

Section checklist.
(** [translate] of i18n-calypso, [String.prototype.replace] with a string
    pattern, and what [isDesktop ()] returns. *)
Variable translate : Phrase → string.
Variable replace : string → string → string → string.
Variable isDesktop : bool.

Definition duration (minutes : Z) : Value :=
  VString (translate (Plural "%d min" "%d mins" minutes)).

Definition text (s : string) : Value := VString (translate (Plain s)).

Definition tasks : gmap string TaskObj :=
  list_to_map
    [("avatar_uploaded",
      list_to_map
        [("title", text "Upload your profile picture");
         ("description",
          text "Who’s the person behind the site? Personalize your posts and comments with a custom profile picture.");
         ("duration", duration 2);
         ("completedTitle", text "You uploaded a profile picture");
         ("completedButtonText", text "Change");
         ("url", VString "/me");
         ("image", VString "/calypso/images/stats/tasks/upload-profile-picture.svg");
         ("tour", VString "checklistUserAvatar")]);
     ("blogname_set",
      list_to_map
        [("title", text "Give your new site a name");
         ("description", text "Give your site a descriptive name to entice visitors.");
         ("duration", duration 1);
         ("completedTitle", text "You updated your site title");
         ("completedButtonText", text "Edit");
         ("url", VString "/settings/general/$siteSlug");
         ("image", VString "/calypso/images/stats/tasks/personalize-your-site.svg");
         ("tour", VString "checklistSiteTitle")]);
     ("blogdescription_set",
      list_to_map
        [("title", text "Create a tagline");
         ("description",
          text "Pique readers’ interest with a little more detail about your site.");
         ("duration", duration 2);
         ("completedTitle", text "You created a tagline");
         ("completedButtonText", text "Change");
         ("url", VString "/settings/general/$siteSlug");
         ("image", VString "/calypso/images/stats/tasks/create-tagline.svg");
         ("tour", VString "checklistSiteTagline")]);
     ("contact_page_updated",
      list_to_map
        [("title", text "Personalize your Contact page");
         ("description",
          text "Encourage visitors to get in touch — a website is for connecting with people.");
         ("duration", duration 2);
         ("completedTitle", text "You updated your Contact page");
         ("completedButtonText", text "Edit");
         ("image", VString "/calypso/images/stats/tasks/contact.svg");
         ("url", VString "/post/$siteSlug/2");
         ("tour", VString "checklistContactPage")]);
     ("domain_selected",
      list_to_map
        [("title", text "Pick a website address");
         ("description", text "Choose an address so people can find you on the internet.");
         ("completedTitle", text "You picked a website address");
         ("completed", VBool true);
         ("image", VString "/calypso/images/stats/tasks/domains.svg")]);
     ("post_published",
      list_to_map
        [("title", text "Publish your first blog post");
         ("description", text "Introduce yourself to the world! That’s why you’re here.");
         ("duration", duration 10);
         ("completedTitle", text "You published your first blog post");
         ("completedButtonText", text "Edit");
         ("url", VString "/post/$siteSlug");
         ("image", VString "/calypso/images/stats/tasks/first-post.svg");
         ("tour", VString "checklistPublishPost")]);
     ("site_created",
      list_to_map
        [("title", text "Create your site");
         ("description", text "This is where your adventure begins.");
         ("completedTitle", text "You created your site");
         ("completed", VBool true)]);
     ("site_icon_set",
      list_to_map
        [("title", text "Upload a site icon");
         ("description",
          text "Help people recognize your site in browser tabs — just like the WordPress.com W!");
         ("duration", duration 1);
         ("completedTitle", text "You uploaded a site icon");
         ("completedButtonText", text "Change");
         ("url", VString "/settings/general/$siteSlug");
         ("image", VString "/calypso/images/stats/tasks/upload-icon.svg");
         ("tour", VString "checklistSiteIcon")])].

Definition sequence : list string :=
  ["site_created"; "domain_selected"; "blogname_set"; "site_icon_set";
   "blogdescription_set"; "avatar_uploaded"; "contact_page_updated";
   "post_published"].

(** [{ id, ...task, ...taskFromServer }]: later properties win; spreading
    [undefined] adds nothing. *)
Definition mergeTask (id : string) (task taskFromServer : option TaskObj) : TaskObj :=
  default ∅ taskFromServer ∪ (default ∅ task ∪ {[ "id" := VString id ]}).

(** [onboardingTasks (checklist)]; [None] is [null]. *)
Definition onboardingTasks (checklist : option ChecklistData) : option (list TaskObj) :=
  match checklist with
  | None => None
  | Some cl =>
      match serverTasks cl with
      | None => None
      | Some fromServer =>
          Some ((fun id => mergeTask id (tasks !! id) (fromServer !! id)) <$> sequence)
      end
  end.

(** [task.url && task.url.replace ('$siteSlug', siteSlug)]: the outer
    [None] is the TypeError of calling [replace] on a truthy value that is
    not a string; a falsy [url] is [Some None]. *)
Definition taskUrl (task : TaskObj) (siteSlug : string) : option (option string) :=
  match task !! "url" with
  | Some (VString s) =>
      if bool_decide (s = "") then Some None
      else Some (Some (replace s "$siteSlug" siteSlug))
  | v => if truthy v then None else Some None
  end.

(** [if ( url )] on what [taskUrl] computed. *)
Definition urlTruthy (url : option string) : bool :=
  match url with
  | Some u => negb (bool_decide (u = ""))
  | None => false
  end.

Definition pageIf (url : option string) : list Call :=
  match url with
  | Some u => if urlTruthy url then [Page u] else []
  | None => []
  end.

(** [launchTask ({ task, location, requestTour, siteSlug, track })]: the
    calls it makes, in order; [None] when it throws. *)
Definition launchTask (task : TaskObj) (location siteSlug : string) : option (list Call) :=
  match taskUrl task siteSlug with
  | None => None
  | Some url =>
      let tour := task !! "tour" in
      if truthy (task !! "completed") then Some (pageIf url)
      else if negb (truthy tour) && negb (urlTruthy url) then Some []
      else
        Some ([Track "calypso_checklist_task_start" "new_blog" (task !! "id") location]
              ++ pageIf url
              ++ match tour with
                 | Some t => if truthy tour && isDesktop then [RequestTour t] else []
                 | None => []
                 end)
  end.
End checklist.
End Checklist.

(** ** The activity-log search box *)

Module Search.
Section search.
(** The values of the filter object are not looked at. *)
Context {V : Type}.

(** [omit (object, 'page')] *)
Definition omit (object : gmap string V) (key : string) : gmap string V :=
  delete key object.

(** [hasTokens ()]: [! isEmpty (omit (this.props.filter, 'page'))] *)
Definition hasTokens (filter : gmap string V) : bool :=
  negb (bool_decide (omit filter "page" = ∅)).
End search.

(** The two entries of [filters]: key, label, icon. *)
Definition filters : list (string * string * string) :=
  [("activity_type", "Activity type", "types"); ("time", "Time", "time")].

(** What [render] shows: the tokens, when there are any, and one entry per
    filter with its icon and label. *)
Record View := mkView {
  showTokens : bool;
  categories : list (string * string * string);
}.

Definition render {V} (filter : gmap string V) : View :=
  {| showTokens := hasTokens filter; categories := filters |}.
End Search.

(** ** More of the example site *)

(** The example site after a props refresh that lists two copies of the
    same plugin, and after two items were enqueued. *)
Definition exampleCopies : Comp := with_props (exampleProps [1; 3]) exampleComp.

Definition exampleTwoQueued : Comp := run [Enq 1 ""; Enq 2 ""] exampleComp.

Definition emptyCard : Card :=
  {| heading := HeadingOne; splitButton := None; taskUpdates := [] |}.

(** The cards [render] builds on the example site. *)
Definition exampleCard : Card :=
  Eval vm_compute in default emptyCard (render exampleComp).

Definition exampleQueuedCard : Card :=
  Eval vm_compute in default emptyCard (render exampleQueued).

Definition exampleCopiesCard : Card :=
  Eval vm_compute in default emptyCard (render (enqueue 1 "" exampleCopies)).

(** The example site with the plugin and the theme both queued, both seen
    in progress, and both seen completed in the next refresh. *)
Definition exampleBothStore : Store := fun r =>
  match r with
  | 6 => mkObj (Some "dara") "theme" "Dara" (Some "inProgress") None
  | 7 => mkObj (Some "dara") "theme" "Dara" (Some "completed") None
  | _ => exampleStore r
  end.

Definition exampleBothProps (plugin theme : ref) : Props :=
  {| siteId := 7; siteSlug := "example.com"; siteName := "Example";
     coreWithUpdate := [0]; pluginWithUpdate := [plugin];
     themeWithUpdate := [theme] |}.

Definition exampleBothCompleted : Comp :=
  with_props (exampleBothProps 4 7)
    (runMethods [MEnqueue 1 ""; MEnqueue 2 ""]
                (mount exampleBothStore (exampleBothProps 1 2))).

(** An http-data store in which every request has succeeded. *)
Definition exampleHttp : string → HttpData :=
  fun _ => {| httpState := "success"; themeUpdateIsNull := true |}.

(** Items as [WithItemsToUpdate] hands them in. *)
Definition exampleItems : list Connect.Item :=
  [Connect.mkItem (Some "akismet/akismet") (exampleStore 1);
   Connect.mkItem None (exampleStore 2)].

Definition exampleCoreItems : list Connect.Item :=
  [Connect.mkItem None (exampleStore 0); Connect.mkItem None (exampleStore 0)].

(** A translation that returns the text as it is, a [replace] for urls
    without the pattern, and a task with a url and a tour. *)
Definition exampleTranslate (p : Checklist.Phrase) : string :=
  match p with
  | Checklist.Plain text => text
  | Checklist.Plural singular _ _ => singular
  end.

Definition exampleReplace (s pattern replacement : string) : string := s.

Definition exampleTask : gmap string Checklist.Value :=
  list_to_map [("id", Checklist.VString "avatar_uploaded");
               ("url", Checklist.VString "/me");
               ("tour", Checklist.VString "checklistUserAvatar")].

Definition exampleServerTasks : gmap string (gmap string Checklist.Value) :=
  list_to_map [("site_icon_set",
                list_to_map [("completed", Checklist.VBool true)])].

(** ** What one refresh does *)

Definition addLog (es : list Effect) (c : Comp) : Comp :=
  {| heap := heap c; props := props c; state := state c; log := log c ++ es |}.

(** The two status changes [componentDidUpdate] acts on. *)
Inductive Transition :=
  | TurnedError
  | TurnedCompleted.

Global Instance Transition_eq_dec : EqDecision Transition.
Proof. solve_decision. Defined.

(** The change of status of a candidate since the previous props, in the
    words of the specification: the previous status existed, the status has
    changed, the item is not in progress, and the new status is ['error']
    or ['completed']. *)
Definition transition (prevProps : Props) (c : Comp) (item : ref) : option Transition :=
  match prevItemWithUpdate (heap c) prevProps (heap c item)
        ≫= fun p => updateStatus (heap c p) with
  | None => None
  | Some prevStatus =>
      match updateStatus (heap c item) with
      | None => None
      | Some s =>
          if decide (s = prevStatus) then None
          else if decide (s = "inProgress") then None
          else if decide (s = "error") then Some TurnedError
          else if decide (s = "completed") then Some TurnedCompleted
          else None
      end
  end.

(** What [dismiss (item)] adds to [dismissed], and the event it sends. *)
Definition dismissItems (c : Comp) (item : ref) : list (option string) :=
  match slug (heap c item) with
  | Some s => [Some s]
  | None => candidateSlugs c
  end.

Definition dismissEvent (c : Comp) (item : ref) : Effect :=
  match slug (heap c item) with
  | Some _ => dismissOneEvent (heap c item)
  | None => dismissAllEvent
  end.

(** What is sent at once for an item with a transition: the error notice
    with its "Try again" button, or the success notice and the tracking
    event of [dismiss (item)]. *)
Definition transitionEffects (c : Comp) (item : ref) (t : Transition) : list Effect :=
  match t with
  | TurnedError =>
      [Dispatch (ErrorNotice (errorText (heap c item) (props c))
                             (noticeId (heap c item)) tryAgain
                             (ClickEnqueue item "_from_error"))]
  | TurnedCompleted =>
      [Dispatch (SuccessNotice (successText (heap c item) (props c))
                               (noticeId (heap c item)) 3000);
       dismissEvent c item]
  end.

(** The [setState] calls made for an item with a transition: the one of
    [dequeue ()], after the one of [dismiss (item)] for a completed item.
    Both read the [this.state] the refresh started with. *)
Definition transitionSetStates (c : Comp) (item : ref) (t : Transition) : list SetState :=
  match t with
  | TurnedError => [SetQueued (slice1 (queued (state c))) continueQueue]
  | TurnedCompleted =>
      [SetDismissed (union [dismissed (state c); dismissItems c item]);
       SetQueued (slice1 (queued (state c))) continueQueue]
  end.

Definition itemsEffects (prevProps : Props) (c : Comp) (items : list ref) : list Effect :=
  items ≫= fun item =>
    match transition prevProps c item with
    | Some t => transitionEffects c item t
    | None => []
    end.

Definition itemsSetStates (prevProps : Props) (c : Comp) (items : list ref) : list SetState :=
  items ≫= fun item =>
    match transition prevProps c item with
    | Some t => transitionSetStates c item t
    | None => []
    end.

(** The batch at the end of [componentDidUpdate]'s loop, before React
    commits it. *)
Definition refresh (prevProps : Props) (c : Comp) : Batch :=
  Refresh.componentDidUpdate prevProps (batch c).

(** The last values written to [dismissed] and to [queued] by a list of
    [setState] calls, and the number of [dequeue]-style calls. *)
Definition lastDismissed (ps : list SetState) : option (list (option string)) :=
  last (omap (fun u => match u with SetDismissed d => Some d | _ => None end) ps).

Definition lastQueued (ps : list SetState) : option (list ref) :=
  last (omap (fun u => match u with SetQueued q _ => Some q | _ => None end) ps).

Definition countQueued (ps : list SetState) : nat :=
  length (omap (fun u => match u with SetQueued q _ => Some q | _ => None end) ps).

(** Every callback is [continueQueue]. *)
Definition continues (ps : list SetState) : Prop :=
  Forall (fun u => match u with
                   | SetQueued _ callback => callback = continueQueue
                   | SetDismissed _ => True
                   end) ps.

(** ** Calls grouped in React updates *)

(** An [enqueue] or [dequeue] call inside a handler. *)
Definition queueCall (q : QueueCall) : Batch -> Batch :=
  match q with
  | Enq item from => Body.enqueue item from
  | Deq => Body.dequeue
  end.

(** A sequence of React updates, each made of the calls of one handler or
    lifecycle method. *)
Definition runUpdates (updates : list (list QueueCall)) (c : Comp) : Comp :=
  fold_left (fun c calls => update (fun b => fold_left (fun b q => queueCall q b) calls b) c)
            updates c.

(** * Facts about lodash's [uniq] and [union] *)

Module LodashFacts.
Section facts.
Context {A : Type} `{EqDecision A}.
Implicit Types (l acc : list A) (x : A).

Lemma elem_of_fold_uniq l : ∀ acc x,
  x ∈ fold_left uniq_step l acc ↔ x ∈ acc ∨ x ∈ l.
Proof.
  induction l as [|y l IH]; intros acc x; simpl.
  - rewrite elem_of_nil. tauto.
  - rewrite IH, elem_of_cons. unfold uniq_step.
    destruct (decide (y ∈ acc)) as [Hy|Hy].
    + split; [tauto|]. intros [?|[->|?]]; auto.
    + rewrite elem_of_app, list_elem_of_singleton. tauto.
Qed.

Lemma elem_of_uniq l x : x ∈ uniq l ↔ x ∈ l.
Proof. unfold uniq. rewrite elem_of_fold_uniq, elem_of_nil. tauto. Qed.

Lemma NoDup_fold_uniq l : ∀ acc, NoDup acc → NoDup (fold_left uniq_step l acc).
Proof.
  induction l as [|y l IH]; intros acc Hacc; simpl; [done|].
  apply IH. unfold uniq_step. destruct (decide (y ∈ acc)); [done|].
  apply NoDup_app. split_and!; [done| |apply NoDup_singleton].
  intros z Hz ->%list_elem_of_singleton. done.
Qed.

Lemma NoDup_uniq l : NoDup (uniq l).
Proof. apply NoDup_fold_uniq, NoDup_nil_2. Qed.

Lemma fold_uniq_NoDup l : ∀ acc,
  NoDup (acc ++ l) → fold_left uniq_step l acc = acc ++ l.
Proof.
  induction l as [|y l IH]; intros acc Hnd; simpl.
  - by rewrite app_nil_r.
  - assert (y ∉ acc) as Hy.
    { apply NoDup_app in Hnd as (_ & Hd & _). intros Hin.
      apply (Hd y Hin). left. }
    unfold uniq_step. rewrite decide_False by done.
    rewrite IH; rewrite <- (assoc_L (++)); done.
Qed.

Lemma uniq_NoDup l : NoDup l → uniq l = l.
Proof. intros Hnd. unfold uniq. by rewrite fold_uniq_NoDup. Qed.

Lemma uniq_idemp l : uniq (uniq l) = uniq l.
Proof. apply uniq_NoDup, NoDup_uniq. Qed.

Lemma uniq_snoc l x : uniq (l ++ [x]) = uniq_step (uniq l) x.
Proof. unfold uniq. by rewrite fold_left_app. Qed.

Lemma union_snoc_in l x : x ∈ l → union [l; [x]] = uniq l.
Proof.
  intros Hx. unfold union. simpl. rewrite uniq_snoc. unfold uniq_step.
  by rewrite decide_True by (by apply elem_of_uniq).
Qed.

Lemma union_snoc_notin l x : x ∉ l → union [l; [x]] = uniq l ++ [x].
Proof.
  intros Hx. unfold union. simpl. rewrite uniq_snoc. unfold uniq_step.
  by rewrite decide_False by (by rewrite elem_of_uniq).
Qed.

Lemma elem_of_union (ls : list (list A)) x :
  x ∈ union ls ↔ ∃ l, l ∈ ls ∧ x ∈ l.
Proof.
  unfold union. rewrite elem_of_uniq. rewrite list_elem_of_In, in_concat.
  split; intros (l & H1 & H2); exists l; by rewrite ?list_elem_of_In in *.
Qed.

Lemma NoDup_union (ls : list (list A)) : NoDup (union ls).
Proof. apply NoDup_uniq. Qed.
End facts.
End LodashFacts.

Import LodashFacts.

(** * The sequencer *)

Section sequencer.
Implicit Types (c : Comp) (item r : ref) (m : Method).

(** ** What each method does to the instance *)

Lemma emitted_app (f : Comp -> Comp) c es :
  log (f c) = log c ++ es → emitted f c = es.
Proof. intros Hlog. unfold emitted. rewrite Hlog. apply drop_app_length. Qed.

Lemma emitted_id (f : Comp -> Comp) c : f c = c → emitted f c = [].
Proof. intros Hf. apply emitted_app. rewrite Hf. by rewrite app_nil_r. Qed.

Lemma updateItem_eq item c :
  updateItem item c =
  {| heap := heap c; props := props c; state := state c;
     log := log c ++ updateItemEffects (heap c) (props c) item |}.
Proof.
  unfold updateItem, showInfoNotice, updateSingle, trackUpdate, emit,
    updateItemEffects; simpl.
  f_equal. by rewrite <- !(assoc_L (++)).
Qed.


Lemma candidate_union c r :
  r ∈ allUpdatableItems (props c) ↔ candidate c r.
Proof.
  unfold allUpdatableItems, candidate. rewrite elem_of_union.
  split.
  - intros (l & Hl & Hr). rewrite !elem_of_cons, elem_of_nil in Hl.
    destruct Hl as [->|[->|[->|[]]]]; auto.
  - intros [H|[H|H]]; eexists; (split; [|exact H]);
      rewrite !elem_of_cons; auto.
Qed.

Lemma isItemUpdating_true h (s : list ref) :
  isItemUpdating h s = true ↔ ∃ r, r ∈ s ∧ updateStatus (h r) = Some "inProgress".
Proof.
  unfold isItemUpdating. rewrite existsb_exists.
  split; intros (r & Hr & Hs); exists r.
  - apply list_elem_of_In in Hr. by apply bool_decide_eq_true in Hs.
  - apply list_elem_of_In in Hr. by rewrite bool_decide_eq_true.
Qed.

Lemma candidates_updating c :
  isItemUpdating (heap c) (allUpdatableItems (props c)) = true
  ↔ ∃ r, candidate c r ∧ inProgress c r.
Proof.
  rewrite isItemUpdating_true. unfold inProgress.
  split; intros (r & Hr & Hs); exists r; split; try done; by apply candidate_union.
Qed.

Lemma ready_guard c :
  ready c ↔
  bool_decide (0 < length (queued (state c)))
  && negb (isItemUpdating (heap c) (allUpdatableItems (props c))) = true.
Proof.
  rewrite andb_true_iff, bool_decide_eq_true, negb_true_iff.
  rewrite <- not_true_iff_false, candidates_updating. unfold ready.
  split; intros [Hq Hnone]; split.
  - destruct (queued (state c)); [done|simpl; lia].
  - intros (r & Hr & Hs). by apply (Hnone r).
  - intros Hnil. rewrite Hnil in Hq. simpl in Hq. lia.
  - intros r Hr Hs. apply Hnone. eauto.
Qed.


Lemma continueQueue_not_ready c : ¬ ready c → continueQueue c = c.
Proof.
  rewrite ready_guard. intros Hnr%not_true_is_false.
  unfold continueQueue. by rewrite Hnr.
Qed.


Lemma continueQueue_eq c :
  continueQueue c =
  {| heap := heap c; props := props c; state := state c;
     log := log c ++ nextDispatch c |}.
Proof.
  unfold continueQueue, nextDispatch. destruct c as [h p st lg]; simpl.
  destruct (_ && _); [|by rewrite app_nil_r].
  destruct (queued st); [by rewrite app_nil_r|]. by rewrite updateItem_eq.
Qed.

Lemma emitted_continueQueue c : emitted continueQueue c = nextDispatch c.
Proof. apply emitted_app. by rewrite continueQueue_eq. Qed.

Lemma nextDispatch_requests c :
  length (filter isUpdateRequest (nextDispatch c)) ≤ 1.
Proof.
  unfold nextDispatch. destruct (_ && _); [|simpl; lia].
  destruct (queued (state c)); [simpl; lia|].
  unfold updateItemEffects.
  rewrite filter_cons_False by (simpl; tauto).
  rewrite filter_cons. case_decide; simpl; lia.
Qed.


Lemma enqueue_eq item f c :
  enqueue item f c =
  continueQueue
    {| heap := store_set_from item f (heap c); props := props c;
       state := {| dismissed := dismissed (state c);
                   queued := union [queued (state c); [item]] |};
       log := log c |}.
Proof. reflexivity. Qed.

Lemma dequeue_eq c :
  dequeue c =
  continueQueue
    {| heap := heap c; props := props c;
       state := {| dismissed := dismissed (state c);
                   queued := slice1 (queued (state c)) |};
       log := log c |}.
Proof. reflexivity. Qed.

Lemma updateAll_eq c :
  updateAll c =
  continueQueue
    {| heap := heap c; props := props c;
       state := {| dismissed := dismissed (state c);
                   queued := union [queued (state c); coreWithUpdate (props c);
                                    pluginWithUpdate (props c);
                                    themeWithUpdate (props c)] |};
       log := log c ++ [Dispatch (RecordTracksEvent
                                    "calypso_activitylog_tasklist_update_all" None)] |}.
Proof. reflexivity. Qed.

Lemma dismiss_one c item s :
  slug (heap c item) = Some s →
  dismiss item c =
  {| heap := heap c; props := props c;
     state := {| dismissed := union [dismissed (state c); [Some s]];
                 queued := queued (state c) |};
     log := log c ++ [dismissOneEvent (heap c item)] |}.
Proof.
  intros Hs. unfold dismiss, update, Body.dismiss. simpl. by rewrite Hs.
Qed.

Lemma dismiss_all c item :
  slug (heap c item) = None →
  dismiss item c =
  {| heap := heap c; props := props c;
     state := {| dismissed := union [dismissed (state c); candidateSlugs c];
                 queued := queued (state c) |};
     log := log c ++ [dismissAllEvent] |}.
Proof.
  intros Hs. unfold dismiss, update, Body.dismiss. simpl. by rewrite Hs.
Qed.

(** Projections of the instance after each method. *)

Lemma queued_continueQueue c : queued (state (continueQueue c)) = queued (state c).
Proof. by rewrite continueQueue_eq. Qed.

Lemma dismissed_continueQueue c :
  dismissed (state (continueQueue c)) = dismissed (state c).
Proof. by rewrite continueQueue_eq. Qed.

Lemma queued_enqueue item f c :
  queued (state (enqueue item f c)) = union [queued (state c); [item]].
Proof. by rewrite enqueue_eq, queued_continueQueue. Qed.

Lemma queued_dequeue c : queued (state (dequeue c)) = slice1 (queued (state c)).
Proof. by rewrite dequeue_eq, queued_continueQueue. Qed.

Lemma heap_enqueue item f c :
  heap (enqueue item f c) = store_set_from item f (heap c).
Proof. by rewrite enqueue_eq, continueQueue_eq. Qed.

Lemma dismiss_cases item c :
  (∃ s, slug (heap c item) = Some s) ∨ slug (heap c item) = None.
Proof. destruct (slug (heap c item)); eauto. Qed.

Lemma queued_dismiss item c : queued (state (dismiss item c)) = queued (state c).
Proof.
  destruct (dismiss_cases item c) as [[s Hs]|Hs];
    by rewrite ?(dismiss_one c item s Hs), ?(dismiss_all c item Hs).
Qed.

Lemma heap_dismiss item c : heap (dismiss item c) = heap c.
Proof.
  destruct (dismiss_cases item c) as [[s Hs]|Hs];
    by rewrite ?(dismiss_one c item s Hs), ?(dismiss_all c item Hs).
Qed.

Lemma props_dismiss item c : props (dismiss item c) = props c.
Proof.
  destruct (dismiss_cases item c) as [[s Hs]|Hs];
    by rewrite ?(dismiss_one c item s Hs), ?(dismiss_all c item Hs).
Qed.

Lemma nextDispatch_dismiss item c : nextDispatch (dismiss item c) = nextDispatch c.
Proof.
  unfold nextDispatch.
  by rewrite queued_dismiss, heap_dismiss, props_dismiss.
Qed.

Lemma elem_of_candidateSlugs c (x : option string) :
  x ∈ candidateSlugs c ↔ ∃ r, candidate c r ∧ slug (heap c r) = x.
Proof.
  unfold candidateSlugs, candidate. rewrite elem_of_union. split.
  - intros (l & Hl & Hx). rewrite !elem_of_cons, elem_of_nil in Hl.
    destruct Hl as [->|[->|[->|[]]]];
      apply list_elem_of_fmap in Hx as (r & -> & Hr); eauto.
  - intros (r & Hc & <-).
    destruct Hc as [Hr|[Hr|Hr]];
      [exists ((fun p => slug (heap c p)) <$> coreWithUpdate (props c))
      |exists ((fun p => slug (heap c p)) <$> pluginWithUpdate (props c))
      |exists ((fun p => slug (heap c p)) <$> themeWithUpdate (props c))];
      (split; [rewrite !elem_of_cons; auto|apply list_elem_of_fmap; eauto]).
Qed.

Lemma elem_of_union_pair {A} `{EqDecision A} (l k : list A) (x : A) :
  x ∈ union [l; k] ↔ x ∈ l ∨ x ∈ k.
Proof.
  rewrite elem_of_union. split.
  - intros (l' & Hl & Hx). rewrite !elem_of_cons, elem_of_nil in Hl.
    destruct Hl as [->|[->|[]]]; auto.
  - intros [H|H]; eexists; (split; [|exact H]); rewrite !elem_of_cons; auto.
Qed.

Lemma store_set_from_same item f (h : Store) :
  from (store_set_from item f h item) = Some f.
Proof. unfold store_set_from. by rewrite decide_True. Qed.

Lemma store_set_from_other item f (h : Store) r :
  r ≠ item → store_set_from item f h r = h r.
Proof. intros Hne. unfold store_set_from. by rewrite decide_False. Qed.

Lemma store_set_from_fields item f (h : Store) r :
  slug (store_set_from item f h r) = slug (h r)
  ∧ type (store_set_from item f h r) = type (h r)
  ∧ name (store_set_from item f h r) = name (h r)
  ∧ updateStatus (store_set_from item f h r) = updateStatus (h r).
Proof. unfold store_set_from. by destruct (decide (r = item)). Qed.

(** ** The queue holds each object once *)

Lemma NoDup_slice1 {A} (l : list A) : NoDup l → NoDup (slice1 l).
Proof. intros Hnd. destruct l; [done|]. by apply NoDup_cons in Hnd as [_ ?]. Qed.

(** C4. [enqueue (item, from)] writes [from] on the object (and on no
    other object), sets [queued] to [union (queued, [item])] and then runs
    [continueQueue].  The union is by object identity: enqueueing the same
    reference again leaves [queued] as it is, and a different object with
    the slug of a queued item is appended as a further entry. *)
Theorem enqueue_union_by_identity item f c :
  from (heap (enqueue item f c) item) = Some f
  ∧ (∀ r, r ≠ item → heap (enqueue item f c) r = heap c r)
  ∧ queued (state (enqueue item f c)) = union [queued (state c); [item]]
  ∧ (∀ f', queued (state (enqueue item f' (enqueue item f c)))
           = queued (state (enqueue item f c)))
  ∧ (NoDup (queued (state c)) → item ∈ queued (state c) →
     queued (state (enqueue item f c)) = queued (state c))
  ∧ (∀ other, NoDup (queued (state c)) → item ∈ queued (state c) →
       other ≠ item → slug (heap c other) = slug (heap c item) →
       other ∉ queued (state c) →
       queued (state (enqueue other f c)) = queued (state c) ++ [other])
  ∧ enqueue item f c =
    continueQueue
      {| heap := store_set_from item f (heap c); props := props c;
         state := {| dismissed := dismissed (state c);
                     queued := union [queued (state c); [item]] |};
         log := log c |}.
Proof.
  split_and!.
  - rewrite heap_enqueue. apply store_set_from_same.
  - intros r Hne. rewrite heap_enqueue. by apply store_set_from_other.
  - apply queued_enqueue.
  - intros f'. rewrite !queued_enqueue.
    rewrite union_snoc_in.
    + apply uniq_idemp.
    + apply elem_of_union_pair. right. apply list_elem_of_here.
  - intros Hnd Hin. rewrite queued_enqueue, union_snoc_in by done.
    by apply uniq_NoDup.
  - intros other Hnd _ _ _ Hout.
    rewrite queued_enqueue, union_snoc_notin by done.
    by rewrite uniq_NoDup.
  - apply enqueue_eq.
Qed.

(** C5. [dismiss (item)] with a string [item.slug] puts that one slug in
    [dismissed] and sends the single-item dismiss event; without a string
    slug it puts the slugs of all core, plugin and theme candidates in
    [dismissed] and sends the dismiss-all event. *)
Theorem dismiss_one_or_all item c :
  (∀ s, slug (heap c item) = Some s →
     dismissed (state (dismiss item c)) = union [dismissed (state c); [Some s]]
     ∧ (∀ x, x ∈ dismissed (state (dismiss item c))
             ↔ x ∈ dismissed (state c) ∨ x = Some s)
     ∧ emitted (dismiss item) c =
       [Dispatch (RecordTracksEvent
                    ("calypso_activitylog_tasklist_dismiss_" +:+ type (heap c item))
                    (Some (Some s)))])
  ∧ (slug (heap c item) = None →
     dismissed (state (dismiss item c))
     = union [dismissed (state c); candidateSlugs c]
     ∧ (∀ x, x ∈ dismissed (state (dismiss item c))
             ↔ x ∈ dismissed (state c) ∨ ∃ r, candidate c r ∧ slug (heap c r) = x)
     ∧ emitted (dismiss item) c =
       [Dispatch (RecordTracksEvent "calypso_activitylog_tasklist_dismiss_all" None)]).
Proof.
  split.
  - intros s Hs. rewrite (dismiss_one c item s Hs). simpl. split_and!.
    + done.
    + intros x. by rewrite elem_of_union_pair, list_elem_of_singleton.
    + apply emitted_app. rewrite (dismiss_one c item s Hs). simpl.
      unfold dismissOneEvent. by rewrite Hs.
  - intros Hs. rewrite (dismiss_all c item Hs). simpl. split_and!.
    + done.
    + intros x. by rewrite elem_of_union_pair, elem_of_candidateSlugs.
    + apply emitted_app. by rewrite (dismiss_all c item Hs).
Qed.

Lemma not_in_itemsToUpdate c r :
  slug (heap c r) ∈ dismissed (state c) → r ∉ itemsToUpdate c.
Proof.
  intros Hin. unfold itemsToUpdate. rewrite list_elem_of_filter.
  intros [Hshown _]. unfold includes in Hshown.
  by rewrite bool_decide_true in Hshown.
Qed.

(** C6. [dismiss (item)] leaves [queued] (and the store and the props) as
    they are.  The dismissed item is no longer among the rendered items,
    but [continueQueue] and [dequeue] behave after the dismissal exactly
    as before it: the same head is dispatched under the same guard and
    the queue advances in the same way. *)
Theorem dismiss_keeps_queue item c :
  queued (state (dismiss item c)) = queued (state c)
  ∧ heap (dismiss item c) = heap c
  ∧ props (dismiss item c) = props c
  ∧ (∀ s r, slug (heap c item) = Some s → slug (heap c r) = Some s →
       r ∉ itemsToUpdate (dismiss item c))
  ∧ (ready (dismiss item c) ↔ ready c)
  ∧ emitted continueQueue (dismiss item c) = emitted continueQueue c
  ∧ queued (state (dequeue (dismiss item c))) = queued (state (dequeue c))
  ∧ emitted dequeue (dismiss item c) = emitted dequeue c.
Proof.
  split_and!.
  - apply queued_dismiss.
  - apply heap_dismiss.
  - apply props_dismiss.
  - intros s r Hs Hr. apply not_in_itemsToUpdate.
    rewrite heap_dismiss, Hr, (dismiss_one c item s Hs). simpl.
    apply elem_of_union_pair. right. apply list_elem_of_here.
  - unfold ready, candidate, inProgress.
    by rewrite queued_dismiss, heap_dismiss, props_dismiss.
  - by rewrite !emitted_continueQueue, nextDispatch_dismiss.
  - by rewrite !queued_dequeue, queued_dismiss.
  - unfold emitted. rewrite !dequeue_eq, !continueQueue_eq. simpl.
    rewrite !drop_app_length.
    unfold nextDispatch. simpl.
    by rewrite queued_dismiss, heap_dismiss, props_dismiss.
Qed.

(** ** Navigation guard *)

Lemma exitHandler_empty confirmed c :
  queued (state c) = [] → exitHandler confirmed c = emit Next c.
Proof. intros Hq. unfold exitHandler. by rewrite Hq. Qed.

Lemma exitHandler_nonempty confirmed c :
  queued (state c) ≠ [] →
  exitHandler confirmed c =
  emit (if confirmed then Next
        else SetTimeoutPageReplace (activityPath (props c)) 0)
       (emit (WindowConfirm leaveMessage) c).
Proof.
  intros Hq. unfold exitHandler.
  rewrite bool_decide_false by (by destruct (queued (state c))).
  by destruct confirmed.
Qed.

(** C9. The exit handler calls [next ()] exactly when [queued] is empty
    or the user confirms the prompt.  With a non-empty queue and a
    declined prompt it asks, then schedules [page.replace] back to the
    activity route, and in every case it leaves [this.state] alone. *)
Theorem exitHandler_next_iff confirmed c :
  (Next ∈ emitted (exitHandler confirmed) c
   ↔ queued (state c) = [] ∨ confirmed = true)
  ∧ (queued (state c) ≠ [] → confirmed = false →
     emitted (exitHandler confirmed) c =
     [WindowConfirm leaveMessage;
      SetTimeoutPageReplace ("/stats/activity/" +:+ siteSlug (props c)) 0])
  ∧ state (exitHandler confirmed c) = state c.
Proof.
  destruct (decide (queued (state c) = [])) as [Hq|Hq].
  - rewrite (exitHandler_empty _ _ Hq).
    assert (emitted (exitHandler confirmed) c = [Next]) as ->.
    { apply emitted_app. by rewrite (exitHandler_empty _ _ Hq). }
    split_and!; [|done..]. split; [auto|]. intros _. apply list_elem_of_here.
  - rewrite (exitHandler_nonempty _ _ Hq).
    assert (emitted (exitHandler confirmed) c =
            [WindowConfirm leaveMessage;
             if confirmed then Next
             else SetTimeoutPageReplace (activityPath (props c)) 0]) as ->.
    { apply emitted_app. rewrite (exitHandler_nonempty _ _ Hq). simpl.
      by rewrite <- (assoc_L (++)). }
    split_and!; [|by intros _ ->|done].
    destruct confirmed.
    + split; [auto|]. intros _. apply list_elem_of_further, list_elem_of_here.
    + split.
      * rewrite !elem_of_cons, elem_of_nil. intros [?|[?|[]]]; discriminate.
      * intros [?|?]; done.
Qed.

(** ** Sequences of [enqueue] and [dequeue] *)

Lemma queued_enqueue_fresh item f c :
  NoDup (queued (state c)) → item ∉ queued (state c) →
  queued (state (enqueue item f c)) = queued (state c) ++ [item].
Proof.
  intros Hnd Hout. rewrite queued_enqueue, union_snoc_notin by done.
  by rewrite uniq_NoDup.
Qed.

Lemma run_cons q calls c :
  run (q :: calls) c = run calls (invoke (queueMethod q) c).
Proof. reflexivity. Qed.

Lemma length_enqueuedItems calls : length (enqueuedItems calls) = enqueues calls.
Proof. induction calls as [|[item f|] calls IH]; simpl; by rewrite ?IH. Qed.

Lemma run_disciplined calls : ∀ c,
  NoDup (queued (state c)) →
  disciplined (queued (state c)) calls = true →
  queued (state (run calls c))
  = drop (dequeues calls) (queued (state c) ++ enqueuedItems calls)
  ∧ dequeues calls ≤ length (queued (state c)) + enqueues calls.
Proof.
  induction calls as [|[item f|] calls IH]; intros c Hnd Hd.
  - simpl. rewrite app_nil_r. split; [done|lia].
  - simpl in Hd. apply andb_true_iff in Hd as [Hout%bool_decide_eq_true Hd].
    rewrite run_cons. simpl invoke.
    pose proof (queued_enqueue_fresh item f c Hnd Hout) as Hq.
    destruct (IH (enqueue item f c)) as [IH1 IH2].
    { rewrite Hq. apply NoDup_app. split_and!; [done| |apply NoDup_singleton].
      intros z Hz ->%list_elem_of_singleton. done. }
    { by rewrite Hq. }
    rewrite IH1, Hq. simpl. rewrite <- (assoc_L (++)). split; [done|].
    rewrite Hq, length_app in IH2. simpl in *. lia.
  - simpl in Hd. apply andb_true_iff in Hd as [Hne Hd].
    rewrite run_cons. simpl invoke.
    destruct (queued (state c)) as [|x q] eqn:Eq; [done|].
    pose proof (queued_dequeue c) as Hq. rewrite Eq in Hq.
    unfold slice1 in Hq, Hd. simpl in Hq, Hd. rewrite drop_0 in Hq, Hd.
    destruct (IH (dequeue c)) as [IH1 IH2].
    { rewrite Hq. by apply NoDup_cons in Hnd as [_ ?]. }
    { by rewrite Hq. }
    rewrite IH1, Hq. simpl. split; [done|]. rewrite Hq in IH2. lia.
Qed.

Lemma runUpdates_singletons calls : ∀ c,
  runUpdates ((fun q => [q]) <$> calls) c = run calls c.
Proof.
  induction calls as [|q calls IH]; intros c; [done|].
  rewrite run_cons, <- IH. by destruct q.
Qed.

Lemma singletons_concat (updates : list (list QueueCall)) :
  Forall (fun u => length u = 1) updates →
  updates = (fun q => [q]) <$> concat updates.
Proof.
  induction 1 as [|u updates Hu _ IH]; [done|].
  destruct u as [|q [|q' u]]; simplify_eq/=. by rewrite <- IH.
Qed.

(** C3, as the code has it.  Starting from the empty state, when every
    call is made in a React update of its own, every [enqueue] passes an
    object that is not in the queue and every [dequeue] finds the queue
    non-empty, the length of [queued] is the number of [enqueue] calls
    minus the number of [dequeue] calls, and [queued] is the list of
    enqueued items in call order without its first [dequeues] entries:
    [dequeue] removes the head and [enqueue] appends at the tail. *)
Theorem disciplined_queue_is_fifo (h : Store) (p : Props)
    (updates : list (list QueueCall)) :
  let calls := concat updates in
  Forall (fun u => length u = 1) updates →
  disciplined [] calls = true →
  Z.of_nat (length (queued (state (runUpdates updates (mount h p)))))
  = (Z.of_nat (enqueues calls) - Z.of_nat (dequeues calls))%Z
  ∧ queued (state (runUpdates updates (mount h p)))
    = drop (dequeues calls) (enqueuedItems calls)
  ∧ (∀ c, queued (state (dequeue c)) = drop 1 (queued (state c)))
  ∧ (∀ c item f, NoDup (queued (state c)) → item ∉ queued (state c) →
       queued (state (enqueue item f c)) = queued (state c) ++ [item]).
Proof.
  intros calls Hone Hd.
  rewrite (singletons_concat updates Hone), runUpdates_singletons.
  fold calls.
  destruct (run_disciplined calls (mount h p)) as [Hq Hle];
    [apply NoDup_nil_2|done|].
  simpl in Hq, Hle. split_and!.
  - rewrite Hq, length_drop, length_enqueuedItems. lia.
  - done.
  - apply queued_dequeue.
  - intros c item f. apply queued_enqueue_fresh.
Qed.

(** ** Deferred [setState] *)

Lemma fold_mergeState ps s :
  fold_left mergeState ps s =
  {| dismissed := default (dismissed s) (lastDismissed ps);
     queued := default (queued s) (lastQueued ps) |}.
Proof.
  unfold lastDismissed, lastQueued.
  induction ps as [|u ps IH] using rev_ind; [by destruct s|].
  rewrite fold_left_app, !omap_app. simpl. rewrite IH.
  destruct u as [q k|d]; simpl; rewrite ?app_nil_r, ?last_snoc; done.
Qed.

Lemma merge_frame ps c :
  let m := fold_left (fun c u => with_state (mergeState (state c) u) c) ps c in
  heap m = heap c ∧ props m = props c ∧ log m = log c
  ∧ state m = fold_left mergeState ps (state c).
Proof.
  revert c. induction ps as [|u ps IH]; intros c; simpl; [done|].
  destruct (IH (with_state (mergeState (state c) u) c)) as (Hh & Hp & Hl & Hs).
  by rewrite Hh, Hp, Hl, Hs.
Qed.

Lemma nextDispatch_indep c c' :
  heap c' = heap c → props c' = props c → state c' = state c →
  nextDispatch c' = nextDispatch c.
Proof. intros Hh Hp Hs. unfold nextDispatch. by rewrite Hh, Hp, Hs. Qed.

Lemma callbacks_frame ps c :
  continues ps →
  let k := fold_left (fun c u => callbackOf u c) ps c in
  heap k = heap c ∧ props k = props c ∧ state k = state c
  ∧ log k = log c ++ concat (replicate (countQueued ps) (nextDispatch c)).
Proof.
  unfold countQueued. intros Hps. revert c.
  induction Hps as [|u ps Hu Hps IH]; intros c; simpl.
  { by rewrite app_nil_r. }
  destruct (IH (callbackOf u c)) as (Hh & Hp & Hs & Hl).
  rewrite Hh, Hp, Hs, Hl. destruct u as [q k|d]; simpl in *; [|done].
  subst k.
  rewrite (nextDispatch_indep c (continueQueue c))
    by (by rewrite continueQueue_eq).
  rewrite (continueQueue_eq c). simpl.
  split_and!; try done. by rewrite <- app_assoc.
Qed.

(** A committed batch: the partial states are merged in call order, then
    [continueQueue] runs once for every call that passed it. *)
Lemma commit_eq b :
  continues (pending b) →
  let s := fold_left mergeState (pending b) (state (instance b)) in
  heap (commit b) = heap (instance b)
  ∧ props (commit b) = props (instance b)
  ∧ state (commit b) = s
  ∧ log (commit b) =
    log (instance b)
    ++ concat (replicate (countQueued (pending b))
                         (nextDispatch (with_state s (instance b)))).
Proof.
  intros Hps. unfold commit.
  destruct (merge_frame (pending b) (instance b)) as (Hh & Hp & Hl & Hs).
  cbv zeta in Hh, Hp, Hl, Hs.
  set (m := fold_left (fun c u => with_state (mergeState (state c) u) c)
                      (pending b) (instance b)) in *.
  destruct (callbacks_frame (pending b) m Hps) as (Hh' & Hp' & Hs' & Hl').
  cbv zeta in Hh', Hp', Hs', Hl'.
  rewrite Hh', Hp', Hs', Hl', Hh, Hp, Hs, Hl. split_and!; try done.
  by rewrite (nextDispatch_indep (with_state
    (fold_left mergeState (pending b) (state (instance b))) (instance b)) m).
Qed.

(** ** Reconciliation *)

Lemma isItemUpdating_single h item :
  isItemUpdating h [item] = bool_decide (updateStatus (h item) = Some "inProgress").
Proof. unfold isItemUpdating. simpl. by rewrite orb_false_r. Qed.

(** The iteratee of [componentDidUpdate] on one item. *)
Lemma refresh_item prevProps b item :
  let c := instance b in
  let b' := Refresh.reconcileItem prevProps b item in
  heap (instance b') = heap c ∧ props (instance b') = props c
  ∧ state (instance b') = state c
  ∧ log (instance b') = log c ++ itemsEffects prevProps c [item]
  ∧ pending b' = pending b ++ itemsSetStates prevProps c [item].
Proof.
  unfold itemsEffects, itemsSetStates. simpl. rewrite !app_nil_r.
  unfold Refresh.reconcileItem, transition.
  destruct (_ ≫= _) as [prevStatus|]; [|by rewrite !app_nil_r].
  rewrite isItemUpdating_single. unfold Refresh.reconcileSwitch.
  destruct (updateStatus (heap (instance b) item)) as [s|] eqn:Hs;
    [|rewrite !bool_decide_false by done; simpl; by rewrite !app_nil_r].
  destruct (decide (s = prevStatus)) as [->|Hne].
  { rewrite bool_decide_true by done. simpl. by rewrite !app_nil_r. }
  rewrite bool_decide_false by congruence.
  destruct (decide (s = "inProgress")) as [->|Hnp].
  { rewrite bool_decide_true by done. simpl. by rewrite !app_nil_r. }
  rewrite bool_decide_false by congruence. simpl.
  destruct (decide (s = "error")) as [->|Hnerr]; [done|].
  destruct (decide (s = "completed")) as [->|Hnc]; [|by rewrite !app_nil_r].
  unfold Body.dequeue, Body.dismiss. simpl.
  unfold dismissEvent, dismissItems, dismissOneEvent, dismissAllEvent, candidateSlugs.
  destruct (slug (heap (instance b) item)) eqn:Hslug; simpl;
    by rewrite ?Hslug, <- !app_assoc.
Qed.

Lemma itemsEffects_indep prevProps c c' items :
  heap c' = heap c → props c' = props c →
  itemsEffects prevProps c' items = itemsEffects prevProps c items.
Proof.
  intros Hh Hp. unfold itemsEffects, transition, transitionEffects, dismissEvent,
    candidateSlugs. by rewrite Hh, Hp.
Qed.

Lemma itemsSetStates_indep prevProps c c' items :
  heap c' = heap c → props c' = props c → state c' = state c →
  itemsSetStates prevProps c' items = itemsSetStates prevProps c items.
Proof.
  intros Hh Hp Hs. unfold itemsSetStates, transition, transitionSetStates,
    dismissItems, candidateSlugs. by rewrite Hh, Hp, Hs.
Qed.

Lemma itemsEffects_app prevProps c l k :
  itemsEffects prevProps c (l ++ k) =
  itemsEffects prevProps c l ++ itemsEffects prevProps c k.
Proof. apply bind_app. Qed.

Lemma itemsSetStates_app prevProps c l k :
  itemsSetStates prevProps c (l ++ k) =
  itemsSetStates prevProps c l ++ itemsSetStates prevProps c k.
Proof. apply bind_app. Qed.

Lemma refresh_items prevProps items : ∀ b,
  let c := instance b in
  let b' := fold_left (Refresh.reconcileItem prevProps) items b in
  heap (instance b') = heap c ∧ props (instance b') = props c
  ∧ state (instance b') = state c
  ∧ log (instance b') = log c ++ itemsEffects prevProps c items
  ∧ pending b' = pending b ++ itemsSetStates prevProps c items.
Proof.
  induction items as [|item items IH]; intros b; cbv zeta.
  { simpl. by rewrite !app_nil_r. }
  change (item :: items) with ([item] ++ items).
  rewrite itemsEffects_app, itemsSetStates_app, fold_left_app.
  change (fold_left (Refresh.reconcileItem prevProps) [item] b)
    with (Refresh.reconcileItem prevProps b item).
  destruct (refresh_item prevProps b item) as (Hh & Hp & Hs & Hl & Hq).
  destruct (IH (Refresh.reconcileItem prevProps b item)) as (Hh' & Hp' & Hs' & Hl' & Hq').
  cbv zeta in Hh, Hp, Hs, Hl, Hq, Hh', Hp', Hs', Hl', Hq'.
  rewrite Hh', Hp', Hs', Hl', Hq', Hh, Hp, Hs, Hl, Hq.
  rewrite (itemsEffects_indep _ (instance b) _ items Hh Hp).
  rewrite (itemsSetStates_indep _ (instance b) _ items Hh Hp Hs).
  by rewrite <- !app_assoc.
Qed.

Lemma continues_itemsSetStates prevProps c items :
  continues (itemsSetStates prevProps c items).
Proof.
  unfold continues, itemsSetStates. apply Forall_forall. intros u Hu.
  apply list_elem_of_bind in Hu as (item & Hu & _).
  destruct (transition prevProps c item) as [[|]|]; simpl in Hu;
    repeat (apply elem_of_cons in Hu as [->|Hu]; [done|]);
    by apply elem_of_nil in Hu.
Qed.

(** One React update that runs the iteratee on [items]. *)
Lemma reconcile_items_eq prevProps items c :
  let c' := update (fun b => fold_left (Refresh.reconcileItem prevProps) items b) c in
  let ps := itemsSetStates prevProps c items in
  let s := fold_left mergeState ps (state c) in
  heap c' = heap c ∧ props c' = props c ∧ state c' = s
  ∧ log c' = log c ++ itemsEffects prevProps c items
              ++ concat (replicate (countQueued ps) (nextDispatch (with_state s c))).
Proof.
  unfold update.
  destruct (refresh_items prevProps items (batch c)) as (Hh & Hp & Hs & Hl & Hq).
  simpl in Hh, Hp, Hs, Hl, Hq.
  destruct (commit_eq (fold_left (Refresh.reconcileItem prevProps) items (batch c)))
    as (Hh' & Hp' & Hs' & Hl').
  { rewrite Hq. apply continues_itemsSetStates. }
  simpl. rewrite Hh', Hp', Hs', Hl', Hh, Hp, Hs, Hl, Hq.
  split_and!; try done. rewrite <- app_assoc. do 4 f_equal.
  by apply nextDispatch_indep.
Qed.

Lemma refresh_fold prevProps c :
  refresh prevProps c =
  fold_left (Refresh.reconcileItem prevProps) (allUpdatableItems (props c)) (batch c).
Proof.
  unfold refresh, Refresh.componentDidUpdate. simpl.
  by destruct (allUpdatableItems (props c)).
Qed.

Lemma componentDidUpdate_fold prevProps c :
  componentDidUpdate prevProps c =
  update (fun b => fold_left (Refresh.reconcileItem prevProps)
                             (allUpdatableItems (props c)) b) c.
Proof.
  unfold componentDidUpdate, update. f_equal. apply refresh_fold.
Qed.

Lemma componentDidUpdate_eq prevProps c :
  let c' := componentDidUpdate prevProps c in
  let ps := itemsSetStates prevProps c (allUpdatableItems (props c)) in
  let s := fold_left mergeState ps (state c) in
  heap c' = heap c ∧ props c' = props c ∧ state c' = s
  ∧ log c' = log c ++ itemsEffects prevProps c (allUpdatableItems (props c))
              ++ concat (replicate (countQueued ps) (nextDispatch (with_state s c))).
Proof. rewrite componentDidUpdate_fold. apply reconcile_items_eq. Qed.

Lemma reconcileItem_eq prevProps c item :
  let c' := reconcileItem prevProps c item in
  let ps := itemsSetStates prevProps c [item] in
  let s := fold_left mergeState ps (state c) in
  heap c' = heap c ∧ props c' = props c ∧ state c' = s
  ∧ log c' = log c ++ itemsEffects prevProps c [item]
              ++ concat (replicate (countQueued ps) (nextDispatch (with_state s c))).
Proof. apply (reconcile_items_eq prevProps [item] c). Qed.

(** Every [setState] call of a refresh writes [queued] to the old queue
    without its head, or [dismissed] to the old list with the slugs of one
    [dismiss] call added. *)
Lemma elem_of_itemsSetStates prevProps c items u :
  u ∈ itemsSetStates prevProps c items →
  ∃ item t, item ∈ items ∧ transition prevProps c item = Some t
            ∧ u ∈ transitionSetStates c item t.
Proof.
  intros Hu. apply list_elem_of_bind in Hu as (item & Hu & Hi).
  destruct (transition prevProps c item) as [t|] eqn:Ht;
    [by exists item, t|by apply elem_of_nil in Hu].
Qed.

Lemma lastQueued_itemsSetStates prevProps c items q :
  lastQueued (itemsSetStates prevProps c items) = Some q →
  q = slice1 (queued (state c)).
Proof.
  unfold lastQueued. intros Hq.
  assert (q ∈ omap (fun u => match u with SetQueued q _ => Some q | _ => None end)
                   (itemsSetStates prevProps c items)) as Hin.
  { apply last_Some in Hq as [l ->]. apply elem_of_app. right. by left. }
  apply list_elem_of_omap in Hin as (u & Hu & Hq').
  apply elem_of_itemsSetStates in Hu as (item & t & _ & _ & Hu).
  destruct t; simpl in Hu;
    repeat (apply elem_of_cons in Hu as [->|Hu]; [by simplify_eq/=|]);
    by apply elem_of_nil in Hu.
Qed.

Lemma lastDismissed_itemsSetStates prevProps c items d :
  lastDismissed (itemsSetStates prevProps c items) = Some d →
  ∃ item, item ∈ items ∧ transition prevProps c item = Some TurnedCompleted
          ∧ d = union [dismissed (state c); dismissItems c item].
Proof.
  unfold lastDismissed. intros Hd.
  assert (d ∈ omap (fun u => match u with SetDismissed d => Some d | _ => None end)
                   (itemsSetStates prevProps c items)) as Hin.
  { apply last_Some in Hd as [l ->]. apply elem_of_app. right. by left. }
  apply list_elem_of_omap in Hin as (u & Hu & Hd').
  apply elem_of_itemsSetStates in Hu as (item & t & Hi & Ht & Hu).
  exists item. destruct t; simpl in Hu;
    repeat (apply elem_of_cons in Hu as [->|Hu]; [by simplify_eq/=|]);
    by apply elem_of_nil in Hu.
Qed.

(** C2. One refresh, as [componentDidUpdate] runs it.  The iteratee is run
    on every candidate of the current props, in the order core, plugins,
    themes.  A candidate has a [transition] when its previous entry (found
    by slug in the previous list of its type) had an [updateStatus], its
    status differs from the previous one, is not ['inProgress'], and is
    ['error'] or ['completed'].  For a candidate that turned ['error'] the
    error notice is shown, with a "Try again" button that runs
    [enqueue (item, '_from_error')], and [dequeue ()] is called; for a
    candidate that turned ['completed'] the success notice is shown,
    [dismiss (item)] is called and then [dequeue ()]; every other candidate
    (status unchanged, in progress, no previous status) does nothing.
    The notices and tracking events are sent during the loop; the
    [setState] calls of [dismiss] and [dequeue] all read the state the
    refresh started with and are pending until the loop is over, when
    React merges them in call order and then runs [continueQueue] once
    for each [dequeue]. *)
Theorem reconcile_changed_status prevProps c :
  let items := allUpdatableItems (props c) in
  let b := refresh prevProps c in
  let s := fold_left mergeState (pending b) (state c) in
  (∀ r, r ∈ items ↔ candidate c r)
  ∧ heap (instance b) = heap c ∧ props (instance b) = props c
  ∧ state (instance b) = state c
  ∧ log (instance b) = log c ++ itemsEffects prevProps c items
  ∧ pending b = itemsSetStates prevProps c items
  ∧ (∀ item from, click (ClickEnqueue item from) = enqueue item from)
  ∧ (∀ b0, pending (Body.dequeue b0)
           = pending b0 ++ [SetQueued (slice1 (queued (state (instance b0)))) continueQueue]
           ∧ instance (Body.dequeue b0) = instance b0)
  ∧ (∀ item b0, pending (Body.dismiss item b0)
                = pending b0 ++ [SetDismissed (union [dismissed (state (instance b0));
                                                      dismissItems (instance b0) item])]
                ∧ instance (Body.dismiss item b0)
                  = emit (dismissEvent (instance b0) item) (instance b0))
  ∧ componentDidUpdate prevProps c = commit b
  ∧ heap (commit b) = heap c ∧ props (commit b) = props c
  ∧ state (commit b) = s
  ∧ log (commit b) =
    log (instance b)
    ++ concat (replicate (countQueued (pending b)) (nextDispatch (with_state s c))).
Proof.
  cbv zeta. rewrite refresh_fold.
  destruct (refresh_items prevProps (allUpdatableItems (props c)) (batch c))
    as (Hh & Hp & Hs & Hl & Hq).
  cbv zeta in Hh, Hp, Hs, Hl, Hq. simpl in Hh, Hp, Hs, Hl, Hq.
  destruct (componentDidUpdate_eq prevProps c) as (Hh' & Hp' & Hs' & Hl').
  cbv zeta in Hh', Hp', Hs', Hl'.
  rewrite componentDidUpdate_fold in Hh', Hp', Hs', Hl'. unfold update in *.
  rewrite Hh, Hp, Hs, Hl, Hq, Hh', Hp', Hs', Hl'.
  split_and!; try done.
  - intros r. apply candidate_union.
  - intros item b0. unfold Body.dismiss, dismissItems, dismissEvent.
    by destruct (slug (heap (instance b0) item)).
  - unfold componentDidUpdate, update. f_equal. apply refresh_fold.
  - by rewrite <- app_assoc.
Qed.

(** ** Invariants of the component state *)

Lemma dismissed_dequeue c : dismissed (state (dequeue c)) = dismissed (state c).
Proof. by rewrite dequeue_eq, dismissed_continueQueue. Qed.

Lemma dismissed_enqueue item f c :
  dismissed (state (enqueue item f c)) = dismissed (state c).
Proof. by rewrite enqueue_eq, dismissed_continueQueue. Qed.

Lemma dismissed_updateAll c : dismissed (state (updateAll c)) = dismissed (state c).
Proof. by rewrite updateAll_eq, dismissed_continueQueue. Qed.

Lemma dismissed_updateItem item c :
  dismissed (state (updateItem item c)) = dismissed (state c).
Proof. by rewrite updateItem_eq. Qed.

Lemma dismissed_dismiss item c :
  dismissed (state c) ⊆ dismissed (state (dismiss item c)).
Proof.
  intros x Hx.
  destruct (dismiss_cases item c) as [[s Hs]|Hs];
    rewrite ?(dismiss_one c item s Hs), ?(dismiss_all c item Hs); simpl;
    apply elem_of_union_pair; by left.
Qed.

(** The state after a refresh of [items]: [dismissed] is as it was or has
    the slugs of the last [dismiss] call added; [queued] is as it was or
    has lost its head. *)
Lemma merged_dismissed prevProps c items :
  let s := fold_left mergeState (itemsSetStates prevProps c items) (state c) in
  dismissed s = dismissed (state c)
  ∨ ∃ item, item ∈ items ∧ transition prevProps c item = Some TurnedCompleted
            ∧ dismissed s = union [dismissed (state c); dismissItems c item].
Proof.
  cbv zeta. rewrite fold_mergeState. simpl.
  destruct (lastDismissed _) as [d|] eqn:Hd; [right|by left].
  apply lastDismissed_itemsSetStates in Hd as (item & Hi & Ht & ->). eauto.
Qed.

Lemma merged_queued prevProps c items :
  let s := fold_left mergeState (itemsSetStates prevProps c items) (state c) in
  queued s = queued (state c) ∨ queued s = slice1 (queued (state c)).
Proof.
  cbv zeta. rewrite fold_mergeState. simpl.
  destruct (lastQueued _) as [q|] eqn:Hq; [right|by left].
  by apply lastQueued_itemsSetStates in Hq as ->.
Qed.

Lemma refresh_item_None prevProps b item :
  transition prevProps (instance b) item = None →
  Refresh.reconcileItem prevProps b item = b.
Proof.
  unfold Refresh.reconcileItem, transition. cbv zeta.
  destruct (_ ≫= _) as [prevStatus|]; [|done].
  rewrite isItemUpdating_single. unfold Refresh.reconcileSwitch. cbv zeta.
  destruct (updateStatus (heap (instance b) item)) as [s|] eqn:Hs;
    [|by rewrite !bool_decide_false by done].
  destruct (decide (s = prevStatus)) as [->|Hne];
    [by rewrite bool_decide_true by done|].
  rewrite bool_decide_false by congruence.
  destruct (decide (s = "inProgress")) as [->|Hnp];
    [by rewrite bool_decide_true by done|].
  rewrite bool_decide_false by congruence. simpl.
  destruct (decide (s = "error")); [done|].
  by destruct (decide (s = "completed")).
Qed.

Lemma transition_no_previous prevProps c item :
  (prevItemWithUpdate (heap c) prevProps (heap c item)
     ≫= fun p => updateStatus (heap c p)) = None →
  transition prevProps c item = None.
Proof. intros Hprev. unfold transition. by rewrite Hprev. Qed.

Lemma transition_same_item prevProps c item :
  prevItemWithUpdate (heap c) prevProps (heap c item) = Some item →
  transition prevProps c item = None.
Proof.
  intros Hp. unfold transition. rewrite Hp. simpl.
  destruct (updateStatus (heap c item)); [|done]. by rewrite decide_True.
Qed.

Lemma transition_completed prevProps c item p prevStatus :
  prevItemWithUpdate (heap c) prevProps (heap c item) = Some p →
  updateStatus (heap c p) = Some prevStatus →
  updateStatus (heap c item) = Some "completed" → prevStatus ≠ "completed" →
  transition prevProps c item = Some TurnedCompleted.
Proof.
  intros Hp Hs Hnew Hne. unfold transition. rewrite Hp. simpl. rewrite Hs, Hnew.
  by rewrite decide_False by congruence.
Qed.

Lemma transition_error prevProps c item p prevStatus :
  prevItemWithUpdate (heap c) prevProps (heap c item) = Some p →
  updateStatus (heap c p) = Some prevStatus →
  updateStatus (heap c item) = Some "error" → prevStatus ≠ "error" →
  transition prevProps c item = Some TurnedError.
Proof.
  intros Hp Hs Hnew Hne. unfold transition. rewrite Hp. simpl. rewrite Hs, Hnew.
  by rewrite decide_False by congruence.
Qed.

Lemma transition_status prevProps c item t :
  transition prevProps c item = Some t →
  updateStatus (heap c item)
  = Some (match t with TurnedError => "error" | TurnedCompleted => "completed" end).
Proof.
  unfold transition. destruct (_ ≫= _); [|done].
  destruct (updateStatus (heap c item)) as [st|]; [|done].
  repeat case_decide; intros; simplify_eq; done.
Qed.

Lemma lastDismissed_app ps qs :
  lastDismissed (ps ++ qs)
  = match lastDismissed qs with Some d => Some d | None => lastDismissed ps end.
Proof. unfold lastDismissed. by rewrite omap_app, last_app. Qed.

Lemma lastQueued_app ps qs :
  lastQueued (ps ++ qs)
  = match lastQueued qs with Some q => Some q | None => lastQueued ps end.
Proof. unfold lastQueued. by rewrite omap_app, last_app. Qed.

Lemma itemsSetStates_split prevProps c l1 item l2 t :
  transition prevProps c item = Some t →
  itemsSetStates prevProps c (l1 ++ item :: l2)
  = itemsSetStates prevProps c l1
    ++ transitionSetStates c item t ++ itemsSetStates prevProps c l2.
Proof.
  intros Ht. rewrite itemsSetStates_app. f_equal.
  change (item :: l2) with ([item] ++ l2). rewrite itemsSetStates_app. f_equal.
  unfold itemsSetStates. simpl. by rewrite Ht, app_nil_r.
Qed.

(** Once some item of the refresh has a transition, the queue loses its
    head, once. *)
Lemma merged_queued_turned prevProps c items item t :
  item ∈ items → transition prevProps c item = Some t →
  queued (fold_left mergeState (itemsSetStates prevProps c items) (state c))
  = slice1 (queued (state c)).
Proof.
  intros Hin Ht. rewrite fold_mergeState. simpl.
  destruct (lastQueued _) as [q|] eqn:Hq.
  { by apply lastQueued_itemsSetStates in Hq as ->. }
  apply list_elem_of_split in Hin as (l1 & l2 & ->).
  rewrite (itemsSetStates_split _ _ _ _ _ t Ht), !lastQueued_app in Hq.
  destruct (lastQueued (itemsSetStates prevProps c l2)); [done|].
  by destruct t.
Qed.

(** Without an item that turned ['completed'], nothing is dismissed. *)
Lemma merged_dismissed_none prevProps c items :
  (∀ r, r ∈ items → transition prevProps c r ≠ Some TurnedCompleted) →
  dismissed (fold_left mergeState (itemsSetStates prevProps c items) (state c))
  = dismissed (state c).
Proof.
  intros Hnone.
  destruct (merged_dismissed prevProps c items) as [->|(item & Hi & Ht & _)];
    [done|]. by destruct (Hnone item Hi).
Qed.

(** The last item that turned ['completed'] decides what is dismissed. *)
Lemma merged_dismissed_last prevProps c l1 item l2 :
  transition prevProps c item = Some TurnedCompleted →
  (∀ r, r ∈ l2 → transition prevProps c r ≠ Some TurnedCompleted) →
  dismissed (fold_left mergeState
                       (itemsSetStates prevProps c (l1 ++ item :: l2)) (state c))
  = union [dismissed (state c); dismissItems c item].
Proof.
  intros Ht Hnone. rewrite fold_mergeState. simpl.
  rewrite (itemsSetStates_split _ _ _ _ _ _ Ht), !lastDismissed_app.
  destruct (lastDismissed (itemsSetStates prevProps c l2)) as [d|] eqn:Hd; [|done].
  apply lastDismissed_itemsSetStates in Hd as (r & Hr & Htr & _).
  by destruct (Hnone r Hr).
Qed.

Lemma elem_of_itemsEffects prevProps c items item t e :
  item ∈ items → transition prevProps c item = Some t →
  e ∈ transitionEffects c item t → e ∈ itemsEffects prevProps c items.
Proof.
  intros Hin Ht He. apply list_elem_of_bind. exists item. by rewrite Ht.
Qed.

Lemma emitted_componentDidUpdate prevProps c :
  ∃ es, emitted (componentDidUpdate prevProps) c
        = itemsEffects prevProps c (allUpdatableItems (props c)) ++ es.
Proof.
  destruct (componentDidUpdate_eq prevProps c) as (_ & _ & _ & Hl).
  eexists. apply emitted_app. exact Hl.
Qed.

Lemma componentDidUpdate_no_transition prevProps c :
  (∀ item, item ∈ allUpdatableItems (props c) →
           transition prevProps c item = None) →
  componentDidUpdate prevProps c = c.
Proof.
  intros Hnone. rewrite componentDidUpdate_fold. unfold update.
  assert (∀ items b, instance b = c →
            (∀ item, item ∈ items → transition prevProps c item = None) →
            fold_left (Refresh.reconcileItem prevProps) items b = b) as Hfold.
  { induction items as [|item items IH]; intros b Hb Hall; simpl; [done|].
    rewrite refresh_item_None
      by (rewrite Hb; apply Hall, list_elem_of_here).
    apply IH; [done|]. intros r Hr. apply Hall. by right. }
  by rewrite Hfold.
Qed.

Lemma dismissed_componentDidUpdate prevProps c :
  dismissed (state c) ⊆ dismissed (state (componentDidUpdate prevProps c)).
Proof.
  destruct (componentDidUpdate_eq prevProps c) as (_ & _ & -> & _).
  destruct (merged_dismissed prevProps c (allUpdatableItems (props c)))
    as [->|(item & _ & _ & ->)]; [done|].
  intros x Hx. apply elem_of_union_pair. by left.
Qed.

(** C10. No method removes a slug from [dismissed]: every slug that is
    dismissed before a call to [enqueue], [dequeue], [continueQueue],
    [updateItem], [updateAll], [dismiss] or [componentDidUpdate] is still
    dismissed after it.  Only [dismiss] (called directly or from
    [componentDidUpdate]) writes [dismissed]; the other methods leave the
    list exactly as it is. *)
Theorem dismissed_never_shrinks m c :
  dismissed (state c) ⊆ dismissed (state (invoke m c))
  ∧ match m with
    | MDismiss _ | MComponentDidUpdate _ => True
    | _ => dismissed (state (invoke m c)) = dismissed (state c)
    end.
Proof.
  destruct m as [item f| | |item| |item|prevProps]; cbn [invoke].
  - by rewrite dismissed_enqueue.
  - by rewrite dismissed_dequeue.
  - by rewrite dismissed_continueQueue.
  - by rewrite dismissed_updateItem.
  - by rewrite dismissed_updateAll.
  - split; [apply dismissed_dismiss|done].
  - split; [apply dismissed_componentDidUpdate|done].
Qed.

(** ** While a candidate is in progress *)

Lemma blocked_not_ready c : blocked c → ¬ ready c.
Proof. intros (r & Hr & Hs) [_ Hnone]. by apply (Hnone r). Qed.

Lemma blocked_indep c c' :
  props c' = props c →
  (∀ r, updateStatus (heap c' r) = updateStatus (heap c r)) →
  blocked c → blocked c'.
Proof.
  intros Hp Hh (r & Hr & Hs). exists r. unfold candidate, inProgress in *.
  by rewrite Hp, Hh.
Qed.



Lemma quiet_emit e : isUpdateRequest e = false → quiet (emit e).
Proof.
  intros He c Hb. split.
  - by apply (blocked_indep c).
  - unfold requests, emit. simpl. rewrite filter_app.
    rewrite filter_cons_False by (rewrite He; tauto).
    by rewrite filter_nil, app_nil_r.
Qed.


Lemma nextDispatch_blocked c : blocked c → nextDispatch c = [].
Proof.
  intros Hb. rewrite <- emitted_continueQueue. apply emitted_id.
  apply continueQueue_not_ready, blocked_not_ready, Hb.
Qed.










(** ** [queued] never holds an object twice *)

Lemma NoDup_queued_dequeue c :
  NoDup (queued (state c)) → NoDup (queued (state (dequeue c))).
Proof. rewrite queued_dequeue. apply NoDup_slice1. Qed.

Lemma NoDup_queued_componentDidUpdate prevProps c :
  NoDup (queued (state c)) →
  NoDup (queued (state (componentDidUpdate prevProps c))).
Proof.
  intros Hnd. destruct (componentDidUpdate_eq prevProps c) as (_ & _ & -> & _).
  destruct (merged_queued prevProps c (allUpdatableItems (props c))) as [->| ->];
    [done|by apply NoDup_slice1].
Qed.

Lemma NoDup_queued_invoke m c :
  NoDup (queued (state c)) → NoDup (queued (state (invoke m c))).
Proof.
  intros Hnd. destruct m as [item f| | |item| |item|prevProps]; cbn [invoke].
  - rewrite queued_enqueue. apply NoDup_union.
  - by apply NoDup_queued_dequeue.
  - by rewrite queued_continueQueue.
  - by rewrite updateItem_eq.
  - rewrite updateAll_eq, queued_continueQueue. apply NoDup_union.
  - by rewrite queued_dismiss.
  - by apply NoDup_queued_componentDidUpdate.
Qed.
End sequencer.

(** * Normalised update status *)

Section status.
Variable getHttpData : string -> HttpData.

(** C7, as the code has it.  ['pending'] gives ['inProgress'] and
    ['failure'] gives ['error'] whatever the flag is; ['success'] gives
    ['completed'] when [isUpdateComplete] holds and ['error'] when it does
    not; ['uninitialized'] and every other state give [false]. *)
Theorem getNormalizedStatus_cases (isUpdateComplete : bool) :
  getNormalizedStatus "pending" isUpdateComplete = Some "inProgress"
  ∧ getNormalizedStatus "failure" isUpdateComplete = Some "error"
  ∧ getNormalizedStatus "success" true = Some "completed"
  ∧ getNormalizedStatus "success" false = Some "error"
  ∧ getNormalizedStatus "uninitialized" isUpdateComplete = None
  ∧ ∀ state : string,
      state ≠ "pending" → state ≠ "failure" → state ≠ "success" →
      getNormalizedStatus state isUpdateComplete = None.
Proof.
  split_and!; try reflexivity.
  intros state Hp Hf Hs. unfold getNormalizedStatus.
  by rewrite !decide_False by congruence.
Qed.

(** C8. [getStatusForCore] passes [false] for [isUpdateComplete], so it
    never returns [{ status: 'completed' }], and a core update whose http
    state is ['success'] comes out as [{ status: 'error' }]. *)
Theorem getStatusForCore_never_completed (siteId : N) :
  getStatusForCore getHttpData siteId ≠ Some "completed"
  ∧ getStatusForCore getHttpData siteId
    = getNormalizedStatus
        (httpState (getHttpData ("core-update-" +:+ numberToString siteId))) false
  ∧ (httpState (getHttpData ("core-update-" +:+ numberToString siteId)) = "success" →
     getStatusForCore getHttpData siteId = Some "error").
Proof.
  unfold getStatusForCore. simpl. split_and!.
  - unfold getNormalizedStatus. repeat case_decide; discriminate.
  - done.
  - by intros ->.
Qed.
End status.

(** * The sequencer on a sample site *)

Section examples.



(** The plugin went from ['inProgress'] to ['completed'] while it was the
    only queued item. *)
Lemma reconcile_completed_example :
  transition (exampleProps [3]) (exampleRefreshed [4]) 4 = Some TurnedCompleted
  ∧ pending (refresh (exampleProps [3]) (exampleRefreshed [4]))
    = [SetDismissed [Some "akismet"]; SetQueued [] continueQueue]
  ∧ drop (length (log (exampleRefreshed [4])))
         (log (instance (refresh (exampleProps [3]) (exampleRefreshed [4]))))
    = [Dispatch (SuccessNotice
                   {| template := "Successfully updated %(item)s on %(siteName)s.";
                      args := Some ("Akismet", "Example") |}
                   "alitemupdate-akismet" 3000);
       Dispatch (RecordTracksEvent "calypso_activitylog_tasklist_dismiss_plugin"
                                   (Some (Some "akismet")))]
  ∧ state (componentDidUpdate (exampleProps [3]) (exampleRefreshed [4]))
    = {| dismissed := [Some "akismet"]; queued := [] |}.
Proof.
  destruct (reconcile_changed_status (exampleProps [3]) (exampleRefreshed [4]))
    as (_ & _ & _ & _ & Hl & Hq & _ & _ & _ & Heq & _ & _ & Hs & _).
  split_and!; [reflexivity| | |].
  - rewrite Hq. reflexivity.
  - rewrite Hl. reflexivity.
  - rewrite Heq, Hs, Hq. reflexivity.
Defined.

(** Enqueueing the same object twice gives a queue of one item; a
    [dequeue] on the empty queue removes nothing; two [dequeue] calls in
    one React update remove one item. *)
Lemma queue_length_counterexample :
  Z.of_nat (length (queued (state (run [Enq 1 ""; Enq 1 ""] exampleComp))))
  ≠ Z.sub (Z.of_nat (enqueues [Enq 1 ""; Enq 1 ""]))
          (Z.of_nat (dequeues [Enq 1 ""; Enq 1 ""]))
  ∧ Z.of_nat (length (queued (state (run [Deq; Enq 1 ""] exampleComp))))
    ≠ Z.sub (Z.of_nat (enqueues [Deq; Enq 1 ""]))
            (Z.of_nat (dequeues [Deq; Enq 1 ""]))
  ∧ disciplined [] (concat [[Enq 1 ""]; [Enq 2 ""]; [Deq; Deq]]) = true
  ∧ queued (state (runUpdates [[Enq 1 ""]; [Enq 2 ""]; [Deq; Deq]] exampleComp))
    = [2]
  ∧ Z.of_nat (length (queued (state (runUpdates [[Enq 1 ""]; [Enq 2 ""]; [Deq; Deq]]
                                                exampleComp))))
    ≠ Z.sub (Z.of_nat (enqueues (concat [[Enq 1 ""]; [Enq 2 ""]; [Deq; Deq]])))
            (Z.of_nat (dequeues (concat [[Enq 1 ""]; [Enq 2 ""]; [Deq; Deq]]))).
Proof.
  split_and!; [vm_compute; discriminate..|reflexivity|reflexivity|
               vm_compute; discriminate].
Qed.

(** Three fresh objects and one [dequeue], each call in an update of its
    own: the first one enqueued left. *)
Lemma disciplined_queue_example :
  Forall (fun u : list QueueCall => length u = 1)
         [[Enq 1 ""]; [Enq 2 ""]; [Deq]; [Enq 0 "_from_error"]]
  ∧ disciplined [] (concat [[Enq 1 ""]; [Enq 2 ""]; [Deq]; [Enq 0 "_from_error"]])
    = true
  ∧ queued (state (runUpdates [[Enq 1 ""]; [Enq 2 ""]; [Deq]; [Enq 0 "_from_error"]]
                              exampleComp))
    = [2; 0].
Proof.
  assert (Forall (fun u : list QueueCall => length u = 1)
                 [[Enq 1 ""]; [Enq 2 ""]; [Deq]; [Enq 0 "_from_error"]]) as Hone
    by (repeat constructor).
  split_and!; [exact Hone|reflexivity|].
  exact (proj1 (proj2 (disciplined_queue_is_fifo
                         exampleStore (exampleProps [1])
                         [[Enq 1 ""]; [Enq 2 ""]; [Deq]; [Enq 0 "_from_error"]]
                         Hone eq_refl))).
Defined.

(** Objects 1 and 3 are two copies of the same plugin. *)
Lemma enqueue_same_slug_example :
  NoDup (queued (state exampleQueued))
  ∧ 1 ∈ queued (state exampleQueued)
  ∧ 3 ≠ 1
  ∧ slug (heap exampleQueued 3) = slug (heap exampleQueued 1)
  ∧ (3 ∉ queued (state exampleQueued))
  ∧ queued (state (enqueue 1 "" exampleQueued)) = [1]
  ∧ queued (state (enqueue 3 "" exampleQueued)) = [1; 3].
Proof.
  assert (NoDup (queued (state exampleQueued))) as Hnd
    by apply NoDup_singleton.
  assert (1 ∈ queued (state exampleQueued)) as Hin
    by apply list_elem_of_here.
  assert (3 ∉ queued (state exampleQueued)) as Hout.
  { intros Hin3. apply list_elem_of_singleton in Hin3. discriminate. }
  destruct (enqueue_union_by_identity 1 "" exampleQueued)
    as (_ & _ & _ & _ & Hsame & Hother & _).
  split_and!; [exact Hnd|exact Hin|discriminate|reflexivity|exact Hout| |].
  - exact (Hsame Hnd Hin).
  - apply (Hother 3 Hnd Hin); [discriminate|reflexivity|exact Hout].
Defined.

(** Dismissing the plugin, and dismissing with the menu's click event. *)
Lemma dismiss_example :
  slug (heap exampleComp 1) = Some "akismet"
  ∧ slug (heap exampleComp 9) = None
  ∧ dismissed (state (dismiss 1 exampleComp)) = [Some "akismet"]
  ∧ dismissed (state (dismiss 9 exampleComp))
    = [Some "wordpress"; Some "akismet"; Some "dara"].
Proof.
  destruct (dismiss_one_or_all 1 exampleComp) as [Hone _].
  destruct (dismiss_one_or_all 9 exampleComp) as [_ Hall].
  split_and!; [reflexivity..| |].
  - exact (proj1 (Hone "akismet" eq_refl)).
  - exact (proj1 (Hall eq_refl)).
Defined.

(** The queued plugin is dismissed: it stays queued and is not rendered. *)
Lemma dismiss_queued_example :
  slug (heap exampleQueued 1) = Some "akismet"
  ∧ queued (state (dismiss 1 exampleQueued)) = [1]
  ∧ (1 ∉ itemsToUpdate (dismiss 1 exampleQueued)).
Proof.
  destruct (dismiss_keeps_queue 1 exampleQueued) as (Hq & _ & _ & Hhid & _).
  split_and!; [reflexivity|exact Hq|].
  apply (Hhid "akismet" 1); reflexivity.
Defined.

(** A ['success'] state whose update is not complete is an error. *)
Lemma success_incomplete_counterexample :
  getNormalizedStatus "success" false ≠ Some "completed".
Proof. vm_compute. discriminate. Qed.

(** A state outside the three known ones. *)
Lemma getNormalizedStatus_example :
  "aborted" ≠ "pending" ∧ "aborted" ≠ "failure" ∧ "aborted" ≠ "success"
  ∧ getNormalizedStatus "aborted" true = None.
Proof.
  assert ("aborted" ≠ "pending") as H1 by discriminate.
  assert ("aborted" ≠ "failure") as H2 by discriminate.
  assert ("aborted" ≠ "success") as H3 by discriminate.
  split_and!; [exact H1|exact H2|exact H3|].
  destruct (getNormalizedStatus_cases true) as (_ & _ & _ & _ & _ & Hother).
  exact (Hother "aborted" H1 H2 H3).
Defined.

(** A core update whose request succeeded. *)
Lemma getStatusForCore_example :
  httpState ((λ _, {| httpState := "success"; themeUpdateIsNull := true |})
               ("core-update-" +:+ numberToString 7)) = "success"
  ∧ getStatusForCore (λ _, {| httpState := "success"; themeUpdateIsNull := true |}) 7
    = Some "error".
Proof.
  split; [reflexivity|].
  apply (getStatusForCore_never_completed
           (λ _, {| httpState := "success"; themeUpdateIsNull := true |}) 7).
  reflexivity.
Defined.

(** Leaving with one queued update and declining the prompt. *)
Lemma exitHandler_declined_example :
  queued (state exampleQueued) ≠ []
  ∧ emitted (exitHandler false) exampleQueued
    = [WindowConfirm leaveMessage;
       SetTimeoutPageReplace "/stats/activity/example.com" 0]
  ∧ queued (state (exitHandler false exampleQueued)) = [1].
Proof.
  assert (queued (state exampleQueued) ≠ []) as Hq by discriminate.
  destruct (exitHandler_next_iff false exampleQueued) as (_ & Hno & Hst).
  split_and!; [exact Hq|exact (Hno Hq eq_refl)|].
  by rewrite Hst.
Defined.

(** A dismissed slug survives [updateAll]. *)
Lemma dismissed_kept_example :
  Some "akismet" ∈ dismissed (state (dismiss 1 exampleComp))
  ∧ Some "akismet" ∈ dismissed (state (invoke MUpdateAll (dismiss 1 exampleComp))).
Proof.
  assert (Some "akismet" ∈ dismissed (state (dismiss 1 exampleComp))) as Hin
    by apply list_elem_of_here.
  split; [exact Hin|].
  exact (proj1 (dismissed_never_shrinks MUpdateAll (dismiss 1 exampleComp)) _ Hin).
Defined.
End examples.

(** * More on the queue: [updateAll], [dequeue], [enqueue] *)

Section uniq_order.
Context {A : Type} `{EqDecision A}.
Implicit Types (l k acc : list A) (x : A).

Lemma fold_uniq_prefix k : ∀ acc, acc `prefix_of` fold_left uniq_step k acc.
Proof.
  induction k as [|y k IH]; intros acc; simpl; [done|].
  etrans; [|apply IH]. unfold uniq_step.
  destruct (decide (y ∈ acc)); [done|]. by apply prefix_app_r.
Qed.

Lemma uniq_app_NoDup l k : NoDup l → l `prefix_of` uniq (l ++ k).
Proof.
  intros Hnd. unfold uniq. rewrite fold_left_app.
  change (fold_left uniq_step l []) with (uniq l).
  rewrite (uniq_NoDup l Hnd). apply fold_uniq_prefix.
Qed.

Lemma uniq_cons x l : ∃ k, uniq (x :: l) = x :: k.
Proof.
  destruct (uniq_app_NoDup [x] l (NoDup_singleton x)) as [k Hk].
  exists k. exact Hk.
Qed.
End uniq_order.

Section queue_more.
Implicit Types (c : Comp) (item r : ref) (m : Method).

Lemma nextDispatch_idle c a q :
  queued (state c) = a :: q → ¬ blocked c →
  nextDispatch c = updateItemEffects (heap c) (props c) a.
Proof.
  intros Hq Hnb.
  assert (ready c) as Hr.
  { split; [by rewrite Hq|]. intros r Hr Hs. apply Hnb. by exists r. }
  apply ready_guard in Hr. unfold nextDispatch. by rewrite Hr, Hq.
Qed.

Lemma nextDispatch_empty c : queued (state c) = [] → nextDispatch c = [].
Proof. intros Hq. unfold nextDispatch. rewrite Hq. by destruct (_ && _). Qed.

Lemma emitted_dequeue c :
  emitted dequeue c =
  nextDispatch {| heap := heap c; props := props c;
                  state := {| dismissed := dismissed (state c);
                              queued := slice1 (queued (state c)) |};
                  log := log c |}.
Proof. apply emitted_app. by rewrite dequeue_eq, continueQueue_eq. Qed.

Lemma emitted_enqueue item f c :
  emitted (enqueue item f) c =
  nextDispatch {| heap := store_set_from item f (heap c); props := props c;
                  state := {| dismissed := dismissed (state c);
                              queued := union [queued (state c); [item]] |};
                  log := log c |}.
Proof. apply emitted_app. by rewrite enqueue_eq, continueQueue_eq. Qed.

Lemma emitted_updateAll c :
  emitted updateAll c =
  Dispatch (RecordTracksEvent "calypso_activitylog_tasklist_update_all" None)
  :: nextDispatch
       {| heap := heap c; props := props c;
          state := {| dismissed := dismissed (state c);
                      queued := union [queued (state c); coreWithUpdate (props c);
                                       pluginWithUpdate (props c);
                                       themeWithUpdate (props c)] |};
          log := log c ++ [Dispatch (RecordTracksEvent
                                       "calypso_activitylog_tasklist_update_all" None)] |}.
Proof.
  apply emitted_app. rewrite updateAll_eq, continueQueue_eq. simpl.
  by rewrite <- (assoc_L (++)).
Qed.

Lemma queued_updateAll c :
  queued (state (updateAll c))
  = union [queued (state c); coreWithUpdate (props c);
           pluginWithUpdate (props c); themeWithUpdate (props c)].
Proof. by rewrite updateAll_eq, queued_continueQueue. Qed.

(** X1. After [updateAll] the queue holds what it held before, in the same
    order and at the front, followed by the candidates that were not
    queued; on an empty queue with pairwise different candidates it is
    core, then plugins, then themes.  The call sends the update-all event
    first and after it at most one update request. *)
Theorem updateAll_queues_candidates c :
  (∀ r, r ∈ queued (state (updateAll c)) ↔ r ∈ queued (state c) ∨ candidate c r)
  ∧ (NoDup (queued (state c)) →
     queued (state c) `prefix_of` queued (state (updateAll c)))
  ∧ (queued (state c) = [] →
     NoDup (coreWithUpdate (props c) ++ pluginWithUpdate (props c)
            ++ themeWithUpdate (props c)) →
     queued (state (updateAll c))
     = coreWithUpdate (props c) ++ pluginWithUpdate (props c)
       ++ themeWithUpdate (props c))
  ∧ (∃ rest,
       emitted updateAll c
       = Dispatch (RecordTracksEvent "calypso_activitylog_tasklist_update_all" None)
         :: rest
       ∧ length (filter isUpdateRequest rest) ≤ 1)
  ∧ dismissed (state (updateAll c)) = dismissed (state c).
Proof.
  split_and!.
  - intros r. rewrite queued_updateAll, elem_of_union. unfold candidate. split.
    + intros (l & Hl & Hr). rewrite !elem_of_cons, elem_of_nil in Hl.
      destruct Hl as [->|[->|[->|[->|[]]]]]; auto.
    + intros [H|[H|[H|H]]]; eexists; (split; [|exact H]);
        rewrite !elem_of_cons; auto.
  - intros Hnd. rewrite queued_updateAll. unfold union. simpl.
    by apply uniq_app_NoDup.
  - intros Hq Hnd. rewrite queued_updateAll, Hq. unfold union. simpl.
    rewrite app_nil_r. by apply uniq_NoDup.
  - eexists. split; [apply emitted_updateAll|]. apply nextDispatch_requests.
  - apply dismissed_updateAll.
Qed.

(** X2. On an idle site (empty queue, no candidate in progress) [updateAll]
    starts exactly the first candidate, in the order core, plugins, themes;
    the others wait in the queue. *)
Theorem updateAll_starts_first_candidate c a l :
  queued (state c) = [] → ¬ blocked c →
  coreWithUpdate (props c) ++ pluginWithUpdate (props c)
    ++ themeWithUpdate (props c) = a :: l →
  emitted updateAll c
  = Dispatch (RecordTracksEvent "calypso_activitylog_tasklist_update_all" None)
    :: updateItemEffects (heap c) (props c) a
  ∧ queued (state (updateAll c)) !! 0 = Some a
  ∧ ∀ r, r ∈ l → r ∈ queued (state (updateAll c)).
Proof.
  intros Hq Hnb Hal.
  assert (∃ k, queued (state (updateAll c)) = a :: k) as [k Hk].
  { rewrite queued_updateAll, Hq. unfold union. simpl. rewrite app_nil_r, Hal.
    apply uniq_cons. }
  split_and!.
  - rewrite emitted_updateAll. f_equal.
    rewrite queued_updateAll in Hk.
    erewrite nextDispatch_idle; [done|exact Hk|].
    intros Hb. apply Hnb. revert Hb. by apply blocked_indep.
  - by rewrite Hk.
  - intros r Hr. rewrite queued_updateAll, Hq. unfold union. simpl.
    rewrite app_nil_r, Hal. apply elem_of_uniq. by right.
Qed.

(** X3. [dequeue] drops the head and, when no candidate is in progress,
    starts the item that was second in the queue; with at most one queued
    item, or while a candidate is in progress, it sends nothing. *)
Theorem dequeue_starts_next c :
  (∀ a b q, queued (state c) = a :: b :: q → ¬ blocked c →
     emitted dequeue c = updateItemEffects (heap c) (props c) b
     ∧ queued (state (dequeue c)) = b :: q)
  ∧ (length (queued (state c)) ≤ 1 →
     emitted dequeue c = [] ∧ queued (state (dequeue c)) = [])
  ∧ (blocked c → emitted dequeue c = []).
Proof.
  split_and!.
  - intros a b q Hq Hnb. rewrite emitted_dequeue, queued_dequeue, Hq.
    split; [|done].
    rewrite (nextDispatch_idle _ b q); [done|done|].
    intros Hb. apply Hnb. revert Hb. by apply blocked_indep.
  - intros Hlen. rewrite emitted_dequeue, queued_dequeue.
    assert (slice1 (queued (state c)) = []) as Hnil.
    { destruct (queued (state c)) as [|a [|b q]]; [done..|simpl in Hlen; lia]. }
    split; [|done]. by apply nextDispatch_empty.
  - intros Hb. rewrite emitted_dequeue. apply nextDispatch_blocked.
    revert Hb. by apply blocked_indep.
Qed.

(** X4. While no candidate is in progress, [enqueue] starts the head of the
    queue: on an empty queue that is the new item, and its tracking event
    name ends with the provenance just written; on a non-empty queue it is
    the old head, whose update request is sent again. *)
Theorem enqueue_starts_head item f c :
  ¬ blocked c →
  (queued (state c) = [] →
   emitted (enqueue item f) c
   = updateItemEffects (store_set_from item f (heap c)) (props c) item
   ∧ emitted (enqueue item f) c !! 0
     = Some (Dispatch (RecordTracksEvent
                         ("calypso_activitylog_tasklist_update_"
                            +:+ type (heap c item) +:+ f)
                         (Some (slug (heap c item))))))
  ∧ (∀ a q, queued (state c) = a :: q →
       emitted (enqueue item f) c
       = updateItemEffects (store_set_from item f (heap c)) (props c) a).
Proof.
  intros Hnb.
  assert (∀ c', props c' = props c →
                heap c' = store_set_from item f (heap c) → ¬ blocked c') as Hnb'.
  { intros c' Hp Hh Hb. apply Hnb. revert Hb. apply blocked_indep; [done|].
    intros r. rewrite Hh. symmetry. apply store_set_from_fields. }
  split.
  - intros Hq. rewrite emitted_enqueue, Hq.
    erewrite nextDispatch_idle; [|reflexivity|by apply Hnb'].
    split; [done|]. simpl. unfold store_set_from at 1 2 3.
    by rewrite decide_True.
  - intros a q Hq. rewrite emitted_enqueue, Hq.
    destruct (uniq_cons a (q ++ [item])) as [k Hk].
    erewrite nextDispatch_idle; [done|exact Hk|by apply Hnb'].
Qed.
End queue_more.

(** * What no sequence of calls changes *)

Section frames.
Implicit Types (c : Comp) (item r : ref) (m : Method) (ms : list Method).

Lemma heap_continueQueue c : heap (continueQueue c) = heap c.
Proof. by rewrite continueQueue_eq. Qed.

Lemma props_continueQueue c : props (continueQueue c) = props c.
Proof. by rewrite continueQueue_eq. Qed.

Lemma heap_dequeue c : heap (dequeue c) = heap c.
Proof. by rewrite dequeue_eq, heap_continueQueue. Qed.

Lemma props_dequeue c : props (dequeue c) = props c.
Proof. by rewrite dequeue_eq, props_continueQueue. Qed.

Lemma props_enqueue item f c : props (enqueue item f c) = props c.
Proof. by rewrite enqueue_eq, props_continueQueue. Qed.

Lemma heap_reconcileItem prevProps c item :
  heap (reconcileItem prevProps c item) = heap c.
Proof. apply reconcileItem_eq. Qed.

Lemma props_reconcileItem prevProps c item :
  props (reconcileItem prevProps c item) = props c.
Proof. apply reconcileItem_eq. Qed.

Lemma heap_props_componentDidUpdate prevProps c :
  heap (componentDidUpdate prevProps c) = heap c
  ∧ props (componentDidUpdate prevProps c) = props c.
Proof. split; apply componentDidUpdate_eq. Qed.

Lemma props_invoke m c : props (invoke m c) = props c.
Proof.
  destruct m as [item f| | |item| |item|prevProps]; cbn [invoke].
  - apply props_enqueue.
  - apply props_dequeue.
  - apply props_continueQueue.
  - by rewrite updateItem_eq.
  - by rewrite updateAll_eq, props_continueQueue.
  - apply props_dismiss.
  - apply heap_props_componentDidUpdate.
Qed.

Lemma heap_invoke m c :
  heap (invoke m c)
  = match m with
    | MEnqueue item f => store_set_from item f (heap c)
    | _ => heap c
    end.
Proof.
  destruct m as [item f| | |item| |item|prevProps]; cbn [invoke].
  - apply heap_enqueue.
  - apply heap_dequeue.
  - apply heap_continueQueue.
  - by rewrite updateItem_eq.
  - by rewrite updateAll_eq, heap_continueQueue.
  - apply heap_dismiss.
  - apply heap_props_componentDidUpdate.
Qed.

Lemma runMethods_cons m ms c : runMethods (m :: ms) c = runMethods ms (invoke m c).
Proof. reflexivity. Qed.

Lemma runMethods_frame ms : ∀ c r,
  props (runMethods ms c) = props c
  ∧ slug (heap (runMethods ms c) r) = slug (heap c r)
  ∧ type (heap (runMethods ms c) r) = type (heap c r)
  ∧ name (heap (runMethods ms c) r) = name (heap c r)
  ∧ updateStatus (heap (runMethods ms c) r) = updateStatus (heap c r)
  ∧ (r ∉ enqueueArguments ms → heap (runMethods ms c) r = heap c r).
Proof.
  induction ms as [|m ms IH]; intros c r; [done|].
  rewrite runMethods_cons.
  destruct (IH (invoke m c) r) as (Hp & Hs & Ht & Hn & Hu & Hfrom).
  rewrite Hp, Hs, Ht, Hn, Hu, props_invoke.
  assert (r ∉ enqueueArguments (m :: ms) → r ∉ enqueueArguments ms) as Hsub.
  { intros Hout Hin. apply Hout. destruct m; simpl; try done. by right. }
  pose proof (heap_invoke m c) as Hh.
  destruct m as [item f| | |item| |item|prevProps]; rewrite Hh;
    try (split_and!; [done..|]; intros Hout; rewrite (Hfrom (Hsub Hout));
         by rewrite Hh).
  destruct (store_set_from_fields item f (heap c) r) as (-> & -> & -> & ->).
  split_and!; [done..|].
  intros Hout. rewrite (Hfrom (Hsub Hout)), Hh.
  apply store_set_from_other. intros ->. apply Hout. simpl. by left.
Qed.

(** X5. Whatever methods are called, the props stay as they are, and so do
    the [slug], [type], [name] and [updateStatus] of every object; an
    object that was never passed to [enqueue] is not touched at all (only
    [enqueue] writes, and only the [from] of its argument). *)
Theorem methods_only_write_from ms c r :
  props (runMethods ms c) = props c
  ∧ slug (heap (runMethods ms c) r) = slug (heap c r)
  ∧ type (heap (runMethods ms c) r) = type (heap c r)
  ∧ name (heap (runMethods ms c) r) = name (heap c r)
  ∧ updateStatus (heap (runMethods ms c) r) = updateStatus (heap c r)
  ∧ (r ∉ enqueueArguments ms → heap (runMethods ms c) r = heap c r).
Proof. apply runMethods_frame. Qed.

Lemma NoDup_dismissed_dismiss item c : NoDup (dismissed (state (dismiss item c))).
Proof.
  destruct (dismiss_cases item c) as [[s Hs]|Hs];
    rewrite ?(dismiss_one c item s Hs), ?(dismiss_all c item Hs); simpl;
    apply NoDup_union.
Qed.

Lemma NoDup_dismissed_componentDidUpdate prevProps c :
  NoDup (dismissed (state c)) →
  NoDup (dismissed (state (componentDidUpdate prevProps c))).
Proof.
  intros Hnd. destruct (componentDidUpdate_eq prevProps c) as (_ & _ & -> & _).
  destruct (merged_dismissed prevProps c (allUpdatableItems (props c)))
    as [->|(item & _ & _ & ->)]; [done|apply NoDup_union].
Qed.

Lemma NoDup_dismissed_invoke m c :
  NoDup (dismissed (state c)) → NoDup (dismissed (state (invoke m c))).
Proof.
  intros Hnd. destruct m as [item f| | |item| |item|prevProps]; cbn [invoke].
  - by rewrite dismissed_enqueue.
  - by rewrite dismissed_dequeue.
  - by rewrite dismissed_continueQueue.
  - by rewrite dismissed_updateItem.
  - by rewrite dismissed_updateAll.
  - apply NoDup_dismissed_dismiss.
  - by apply NoDup_dismissed_componentDidUpdate.
Qed.

(** X6. From the mounted component on, whatever methods are called,
    [queued] never holds the same object twice and [dismissed] never holds
    the same slug twice. *)
Theorem state_lists_have_no_duplicates (h : Store) (p : Props) ms :
  NoDup (queued (state (runMethods ms (mount h p))))
  ∧ NoDup (dismissed (state (runMethods ms (mount h p)))).
Proof.
  assert (∀ c, NoDup (queued (state c)) → NoDup (dismissed (state c)) →
               NoDup (queued (state (runMethods ms c)))
               ∧ NoDup (dismissed (state (runMethods ms c)))) as Hinv.
  { induction ms as [|m ms IH]; intros c Hq Hd; [done|].
    rewrite runMethods_cons.
    apply IH; [by apply NoDup_queued_invoke|by apply NoDup_dismissed_invoke]. }
  apply Hinv; apply NoDup_nil_2.
Qed.
End frames.

(** * More on reconciliation *)

Section reconcile_more.
Implicit Types (c : Comp) (item r p : ref) (h : Store) (l : list ref).

Lemma findBySlug_Some h l g p :
  findBySlug h l g = Some p →
  p ∈ l ∧ ∃ s, g = Some s ∧ slug (h p) = Some s.
Proof.
  intros Hf. apply find_some in Hf as [Hin Hm]. split; [by apply list_elem_of_In|].
  unfold matchesSlug in Hm. destruct g as [a|]; [|done].
  destruct (slug (h p)) as [b|]; [|done].
  apply bool_decide_eq_true in Hm as ->. eauto.
Qed.

Lemma findBySlug_self h l r s :
  slugsDistinct h l → r ∈ l → slug (h r) = Some s →
  findBySlug h l (Some s) = Some r.
Proof.
  intros Hd Hin Hs. destruct (findBySlug h l (Some s)) as [p|] eqn:Hf.
  - apply findBySlug_Some in Hf as (Hp & s' & [= <-] & Hsp).
    f_equal. by apply (Hd p r s).
  - apply find_none with (x := r) in Hf; [|by apply list_elem_of_In].
    unfold matchesSlug in Hf. rewrite Hs in Hf.
    by rewrite bool_decide_true in Hf.
Qed.

Lemma findBySlug_no_slug h l : findBySlug h l None = None.
Proof. unfold findBySlug. by induction l. Qed.

Lemma prevItemWithUpdate_in h prevProps o p :
  prevItemWithUpdate h prevProps o = Some p →
  p ∈ coreWithUpdate prevProps ∨ p ∈ pluginWithUpdate prevProps
  ∨ p ∈ themeWithUpdate prevProps.
Proof.
  unfold prevItemWithUpdate, propsLookup.
  repeat case_decide; simpl; intros Hf; try done;
    apply findBySlug_Some in Hf as [Hin _]; auto.
Qed.

Lemma prevItemWithUpdate_self h (ps : Props) r t l :
  propsLookup ps (t +:+ "WithUpdate") = Some l →
  type (h r) = t → slugsDistinct h l → r ∈ l →
  prevItemWithUpdate h ps (h r) = (slug (h r) ≫= λ _, Some r).
Proof.
  intros Hl Ht Hd Hin. unfold prevItemWithUpdate. rewrite Ht, Hl. simpl.
  destruct (slug (h r)) as [s|] eqn:Hs; simpl.
  - by apply findBySlug_self.
  - apply findBySlug_no_slug.
Qed.

(** X7. When [componentDidUpdate] is called with previous props equal to
    the current ones (a re-render caused by the component's own state) and
    the three lists hold items of their own type, one per slug, nothing
    happens: no notice is repeated and the queue is not advanced. *)
Theorem componentDidUpdate_same_props c :
  wellFormed (heap c) (props c) → componentDidUpdate (props c) c = c.
Proof.
  intros (Tc & Tp & Tt & Dc & Dp & Dt).
  apply componentDidUpdate_no_transition.
  intros item Hin. apply candidate_union in Hin.
  assert (prevItemWithUpdate (heap c) (props c) (heap c item)
          = (slug (heap c item) ≫= λ _, Some item)) as Hprev.
  { destruct Hin as [Hin|[Hin|Hin]].
    - by apply (prevItemWithUpdate_self _ _ _ "core" (coreWithUpdate (props c)));
        [|apply Tc|..].
    - by apply (prevItemWithUpdate_self _ _ _ "plugin" (pluginWithUpdate (props c)));
        [|apply Tp|..].
    - by apply (prevItemWithUpdate_self _ _ _ "theme" (themeWithUpdate (props c)));
        [|apply Tt|..]. }
  destruct (slug (heap c item)) as [s|]; simpl in Hprev.
  - by apply transition_same_item.
  - apply transition_no_previous. by rewrite Hprev.
Qed.

(** X8. When no item of the previous props had an [updateStatus] (no update
    had been observed in progress), [componentDidUpdate] does nothing,
    whatever the new statuses are: an update whose ['inProgress'] status
    was never observed gets no notice and does not advance the queue. *)
Theorem componentDidUpdate_never_started prevProps c :
  neverStarted (heap c) prevProps → componentDidUpdate prevProps c = c.
Proof.
  intros Hns. apply componentDidUpdate_no_transition.
  intros item _. apply transition_no_previous.
  destruct (prevItemWithUpdate _ _ _) as [p|] eqn:Hp; [|done]. simpl.
  apply Hns. by apply prevItemWithUpdate_in in Hp.
Qed.
End reconcile_more.

(** * What the user sees: the card and its rows *)

Section card.
Implicit Types (c : Comp) (item r p : ref).

Lemma itemsToUpdate_ext c c' :
  props c' = props c → dismissed (state c') = dismissed (state c) →
  (∀ r, slug (heap c' r) = slug (heap c r)) →
  itemsToUpdate c' = itemsToUpdate c.
Proof.
  intros Hp Hd Hs. unfold itemsToUpdate. rewrite Hp, Hd.
  apply list_filter_iff. intros r. by rewrite Hs.
Qed.

Lemma elem_of_itemsToUpdate c r :
  r ∈ itemsToUpdate c ↔ candidate c r ∧ slug (heap c r) ∉ dismissed (state c).
Proof.
  unfold itemsToUpdate. rewrite list_elem_of_filter, candidate_union.
  unfold includes. rewrite negb_True, bool_decide_spec. tauto.
Qed.

Lemma not_completed_transition prevProps c (l : list ref) :
  (∀ r, r ∈ l → updateStatus (heap c r) ≠ Some "completed") →
  ∀ r, r ∈ l → transition prevProps c r ≠ Some TurnedCompleted.
Proof.
  intros Hnone r Hr Ht. apply transition_status in Ht. by apply (Hnone r Hr).
Qed.

(** X9. When the status of a candidate turns ['completed'] (from a
    different previous status) and no candidate after it in the list is
    ['completed'], [componentDidUpdate] shows the success notice, the
    item's slug is dismissed (it is the one slug added to [dismissed]), no
    object with that slug is rendered any more, and the head of the queue
    is dropped. *)
Theorem completed_item_leaves_the_card prevProps c l1 item l2 p prevStatus s :
  allUpdatableItems (props c) = l1 ++ item :: l2 →
  (∀ r, r ∈ l2 → updateStatus (heap c r) ≠ Some "completed") →
  prevItemWithUpdate (heap c) prevProps (heap c item) = Some p →
  updateStatus (heap c p) = Some prevStatus →
  updateStatus (heap c item) = Some "completed" → prevStatus ≠ "completed" →
  slug (heap c item) = Some s →
  Dispatch (SuccessNotice (successText (heap c item) (props c))
                          ("alitemupdate-" +:+ s) 3000)
    ∈ emitted (componentDidUpdate prevProps) c
  ∧ dismissed (state (componentDidUpdate prevProps c))
    = union [dismissed (state c); [Some s]]
  ∧ Some s ∈ dismissed (state (componentDidUpdate prevProps c))
  ∧ (∀ r, slug (heap c r) = Some s →
          r ∉ itemsToUpdate (componentDidUpdate prevProps c))
  ∧ queued (state (componentDidUpdate prevProps c)) = drop 1 (queued (state c)).
Proof.
  intros Hitems Hlater Hp Hs Hnew Hne Hslug.
  pose proof (transition_completed _ _ _ _ _ Hp Hs Hnew Hne) as Ht.
  assert (item ∈ allUpdatableItems (props c)) as Hin.
  { rewrite Hitems. apply elem_of_app. right. apply list_elem_of_here. }
  destruct (emitted_componentDidUpdate prevProps c) as [es Hes].
  destruct (componentDidUpdate_eq prevProps c) as (Hh & Hpr & Hst & _).
  cbv zeta in Hh, Hpr, Hst.
  assert (dismissed (state (componentDidUpdate prevProps c))
          = union [dismissed (state c); [Some s]]) as Hd.
  { rewrite Hst, Hitems.
    rewrite (merged_dismissed_last _ _ _ _ _ Ht
               (not_completed_transition _ _ _ Hlater)).
    unfold dismissItems. by rewrite Hslug. }
  assert (Some s ∈ dismissed (state (componentDidUpdate prevProps c))) as Hsd.
  { rewrite Hd. apply elem_of_union_pair. right. apply list_elem_of_here. }
  split_and!; [|exact Hd|exact Hsd| |].
  - rewrite Hes. apply elem_of_app. left.
    apply (elem_of_itemsEffects _ _ _ item TurnedCompleted); [done..|].
    simpl. unfold noticeId. rewrite Hslug. apply list_elem_of_here.
  - intros r Hr. apply not_in_itemsToUpdate. by rewrite Hh, Hr.
  - rewrite Hst. by apply (merged_queued_turned _ _ _ item TurnedCompleted).
Qed.

(** X10. When the status of a candidate turns ['error'] (from a different
    previous status) and no candidate is ['completed'],
    [componentDidUpdate] shows the error notice, drops the head of the
    queue (once, however many candidates failed), dismisses nothing and
    renders the same items; a click on "Try again" then writes
    ['_from_error'] on the item and, if the item is not queued, appends it
    at the tail. *)
Theorem failed_item_can_be_retried prevProps c item p prevStatus :
  candidate c item →
  (∀ r, candidate c r → updateStatus (heap c r) ≠ Some "completed") →
  prevItemWithUpdate (heap c) prevProps (heap c item) = Some p →
  updateStatus (heap c p) = Some prevStatus →
  updateStatus (heap c item) = Some "error" → prevStatus ≠ "error" →
  dismissed (state (componentDidUpdate prevProps c)) = dismissed (state c)
  ∧ itemsToUpdate (componentDidUpdate prevProps c) = itemsToUpdate c
  ∧ queued (state (componentDidUpdate prevProps c)) = drop 1 (queued (state c))
  ∧ Dispatch (ErrorNotice (errorText (heap c item) (props c))
                          (noticeId (heap c item)) tryAgain
                          (ClickEnqueue item "_from_error"))
      ∈ emitted (componentDidUpdate prevProps) c
  ∧ from (heap (click (ClickEnqueue item "_from_error")
                      (componentDidUpdate prevProps c)) item)
    = Some "_from_error"
  ∧ (NoDup (queued (state c)) → item ∉ drop 1 (queued (state c)) →
     queued (state (click (ClickEnqueue item "_from_error")
                          (componentDidUpdate prevProps c)))
     = drop 1 (queued (state c)) ++ [item]).
Proof.
  intros Hc Hnone Hp Hs Hnew Hne.
  pose proof (transition_error _ _ _ _ _ Hp Hs Hnew Hne) as Ht.
  assert (item ∈ allUpdatableItems (props c)) as Hin by by apply candidate_union.
  destruct (emitted_componentDidUpdate prevProps c) as [es Hes].
  destruct (componentDidUpdate_eq prevProps c) as (Hh & Hpr & Hst & _).
  cbv zeta in Hh, Hpr, Hst.
  assert (dismissed (state (componentDidUpdate prevProps c)) = dismissed (state c))
    as Hd.
  { rewrite Hst. apply merged_dismissed_none.
    apply not_completed_transition. intros r Hr. by apply Hnone, candidate_union. }
  assert (queued (state (componentDidUpdate prevProps c)) = drop 1 (queued (state c)))
    as Hq.
  { rewrite Hst. by apply (merged_queued_turned _ _ _ item TurnedError). }
  split_and!; [exact Hd| |exact Hq| | |].
  - apply itemsToUpdate_ext; [done..|]. intros r. by rewrite Hh.
  - rewrite Hes. apply elem_of_app. left.
    apply (elem_of_itemsEffects _ _ _ item TurnedError); [done..|].
    apply list_elem_of_here.
  - simpl. rewrite heap_enqueue. apply store_set_from_same.
  - intros Hnd Hout. simpl. rewrite <- Hq in *.
    apply queued_enqueue_fresh; [|done]. rewrite Hq.
    change (drop 1 (queued (state c))) with (slice1 (queued (state c))).
    by apply NoDup_slice1.
Qed.

(** X28. Every [dismiss] of one refresh reads the [dismissed] list the
    refresh started with, so only the last one counts: when the last
    candidate that turned ['completed'] has slug [s], a candidate with
    another slug that was rendered before the refresh is still rendered
    after it, also when its own update completed in the same refresh; and
    the queue has lost one item, however many updates completed. *)
Theorem completed_together_stays_on_the_card prevProps c l1 item l2 p prevStatus s r :
  allUpdatableItems (props c) = l1 ++ item :: l2 →
  (∀ r', r' ∈ l2 → updateStatus (heap c r') ≠ Some "completed") →
  prevItemWithUpdate (heap c) prevProps (heap c item) = Some p →
  updateStatus (heap c p) = Some prevStatus →
  updateStatus (heap c item) = Some "completed" → prevStatus ≠ "completed" →
  slug (heap c item) = Some s →
  r ∈ itemsToUpdate c → slug (heap c r) ≠ Some s →
  r ∈ itemsToUpdate (componentDidUpdate prevProps c)
  ∧ (slug (heap c r) ∉ dismissed (state (componentDidUpdate prevProps c)))
  ∧ queued (state (componentDidUpdate prevProps c)) = drop 1 (queued (state c)).
Proof.
  intros Hitems Hlater Hp Hs Hnew Hne Hslug Hr Hrs.
  pose proof (transition_completed _ _ _ _ _ Hp Hs Hnew Hne) as Ht.
  assert (item ∈ allUpdatableItems (props c)) as Hin.
  { rewrite Hitems. apply elem_of_app. right. apply list_elem_of_here. }
  destruct (componentDidUpdate_eq prevProps c) as (Hh & Hpr & Hst & _).
  cbv zeta in Hh, Hpr, Hst.
  apply elem_of_itemsToUpdate in Hr as [Hc Hout].
  assert (slug (heap c r) ∉ dismissed (state (componentDidUpdate prevProps c)))
    as Hout'.
  { rewrite Hst, Hitems.
    rewrite (merged_dismissed_last _ _ _ _ _ Ht
               (not_completed_transition _ _ _ Hlater)).
    unfold dismissItems. rewrite Hslug. intros Hin'.
    apply elem_of_union_pair in Hin' as [Hin'|Hin']; [done|].
    by apply list_elem_of_singleton in Hin'. }
  split_and!; [|exact Hout'|].
  - apply elem_of_itemsToUpdate. rewrite Hh. split; [|done].
    unfold candidate in *. by rewrite Hpr.
  - rewrite Hst. by apply (merged_queued_turned _ _ _ item TurnedCompleted).
Qed.
End card.

Section rendering.
Implicit Types (c : Comp) (item r : ref) (ms : list Method).

Lemma render_None c : render c = None ↔ itemsToUpdate c = [].
Proof. unfold render. by destruct (itemsToUpdate c). Qed.

Lemma render_Some c card :
  render c = Some card →
  itemsToUpdate c ≠ []
  ∧ card = {| heading := if bool_decide (1 < length (itemsToUpdate c))
                         then HeadingCount (length (itemsToUpdate c)) else HeadingOne;
              splitButton :=
                if bool_decide (1 < length (itemsToUpdate c))
                then Some {| buttonLabel := plainText "Update all";
                             buttonOnClick := OnUpdateAll;
                             buttonDisabled := bool_decide (0 < length (queued (state c)));
                             buttonMenu := [(plainText "Manage plugins", OnGoManagePlugins);
                                            (plainText "Dismiss all", OnDismiss)] |}
                else None;
              taskUpdates := taskUpdateOf c <$> itemsToUpdate c |}.
Proof.
  unfold render. destruct (itemsToUpdate c) eqn:Hi; [done|].
  simpl. by intros [= <-].
Qed.

Lemma itemsToUpdate_nil c :
  itemsToUpdate c = [] ↔ ∀ r, candidate c r → slug (heap c r) ∈ dismissed (state c).
Proof.
  split.
  - intros Hnil r Hr.
    destruct (decide (slug (heap c r) ∈ dismissed (state c))) as [|Hout]; [done|].
    assert (r ∈ itemsToUpdate c) as Hin by by apply elem_of_itemsToUpdate.
    rewrite Hnil in Hin. by apply elem_of_nil in Hin.
  - intros Hall. destruct (itemsToUpdate c) as [|r l] eqn:Hi; [done|].
    assert (r ∈ itemsToUpdate c) as Hin by (rewrite Hi; apply list_elem_of_here).
    apply elem_of_itemsToUpdate in Hin as [Hc Hout]. by destruct (Hout (Hall r Hc)).
Qed.

Lemma dismissed_invoke_grows m c :
  dismissed (state c) ⊆ dismissed (state (invoke m c)).
Proof.
  destruct m as [item f| | |item| |item|prevProps]; cbn [invoke].
  - by rewrite dismissed_enqueue.
  - by rewrite dismissed_dequeue.
  - by rewrite dismissed_continueQueue.
  - by rewrite dismissed_updateItem.
  - by rewrite dismissed_updateAll.
  - apply dismissed_dismiss.
  - apply dismissed_componentDidUpdate.
Qed.

Lemma dismissed_runMethods_grows ms : ∀ c,
  dismissed (state c) ⊆ dismissed (state (runMethods ms c)).
Proof.
  induction ms as [|m ms IH]; intros c; [done|]. rewrite runMethods_cons.
  etrans; [apply (dismissed_invoke_grows m)|apply IH].
Qed.

(** X11. [render] returns [null] exactly when the slug of every candidate
    is dismissed (in particular when there is no candidate). *)
Theorem render_null_iff_all_dismissed c :
  render c = None
  ↔ ∀ r, candidate c r → slug (heap c r) ∈ dismissed (state c).
Proof. by rewrite render_None, itemsToUpdate_nil. Qed.

(** X12. After [dismiss] is called with an object that has no string slug
    (the "Dismiss all" entry), [render] returns [null], and it keeps
    returning [null] whatever methods are called afterwards, as long as the
    props are the same. *)
Theorem dismiss_all_hides_the_card ev ms c :
  slug (heap c ev) = None →
  render (dismiss ev c) = None
  ∧ render (runMethods ms (dismiss ev c)) = None.
Proof.
  intros Hev.
  assert (∀ r, candidate c r →
               slug (heap c r) ∈ dismissed (state (dismiss ev c))) as Hall.
  { intros r Hr. rewrite (dismiss_all c ev Hev). simpl.
    apply elem_of_union_pair. right. apply elem_of_candidateSlugs. eauto. }
  split; apply render_None, itemsToUpdate_nil; intros r Hr.
  - rewrite heap_dismiss. apply Hall. unfold candidate in *.
    by rewrite props_dismiss in Hr.
  - destruct (runMethods_frame ms (dismiss ev c) r) as (Hp & Hs & _).
    rewrite Hs, heap_dismiss. apply dismissed_runMethods_grows, Hall.
    unfold candidate in *. by rewrite Hp, props_dismiss in Hr.
Qed.

(** X13. When [render] shows the card, it has one row per candidate whose
    slug is not dismissed, each such object once; the heading counts the
    rows; the "Update all" button is there exactly when there are at least
    two rows, and it is disabled exactly when the queue is not empty. *)
Theorem render_rows c card :
  render c = Some card →
  toUpdate <$> taskUpdates card = itemsToUpdate c
  ∧ NoDup (toUpdate <$> taskUpdates card)
  ∧ (∀ r, r ∈ toUpdate <$> taskUpdates card
          ↔ candidate c r ∧ slug (heap c r) ∉ dismissed (state c))
  ∧ 1 ≤ length (taskUpdates card)
  ∧ heading card = (if bool_decide (length (taskUpdates card) = 1)
                    then HeadingOne else HeadingCount (length (taskUpdates card)))
  ∧ (splitButton card = None ↔ length (taskUpdates card) = 1)
  ∧ (∀ b, splitButton card = Some b →
          (buttonDisabled b = true ↔ queued (state c) ≠ [])).
Proof.
  intros Hr. apply render_Some in Hr as [Hne ->]. simpl.
  assert (toUpdate <$> (taskUpdateOf c <$> itemsToUpdate c) = itemsToUpdate c) as Hrows.
  { rewrite <- list_fmap_compose. by rewrite <- (list_fmap_id (itemsToUpdate c)) at 2. }
  rewrite Hrows, length_fmap.
  assert (1 ≤ length (itemsToUpdate c)) as Hlen.
  { destruct (itemsToUpdate c); [done|simpl; lia]. }
  split_and!; [done| |apply elem_of_itemsToUpdate|done|..].
  - unfold itemsToUpdate. apply NoDup_filter, NoDup_union.
  - repeat case_bool_decide; try done; lia.
  - case_bool_decide; split; intros ?; try done; lia.
  - intros b. case_bool_decide; [|done]. intros [= <-]. simpl.
    rewrite bool_decide_eq_true.
    destruct (queued (state c)); simpl; [split; [lia|done]|split; [done|lia]].
Qed.
End rendering.

Section rows.
Implicit Types (c : Comp) (item r : ref) (h : Store).

Lemma isItemEnqueued_true h g (q : list ref) :
  isItemEnqueued h g q = true
  ↔ ∃ r s, r ∈ q ∧ g = Some s ∧ slug (h r) = Some s.
Proof.
  unfold isItemEnqueued. rewrite bool_decide_eq_true. split.
  - intros [p Hp]. apply findBySlug_Some in Hp as (Hin & s & -> & Hs). eauto.
  - intros (r & s & Hin & -> & Hs).
    destruct (findBySlug h q (Some s)) as [p|] eqn:Hf; [eauto|].
    apply find_none with (x := r) in Hf; [|by apply list_elem_of_In].
    unfold matchesSlug in Hf. rewrite Hs in Hf.
    by rewrite bool_decide_true in Hf.
Qed.

(** X14. A rendered row is disabled exactly when some queued object has
    the row's string slug: the match is by slug, not by object, and a row
    without a string slug is never disabled. *)
Theorem row_disabled_iff_slug_queued c card t :
  render c = Some card → t ∈ taskUpdates card →
  (disable t = true
   ↔ ∃ r s, r ∈ queued (state c) ∧ taskSlug t = Some s ∧ slug (heap c r) = Some s)
  ∧ (taskSlug t = None → disable t = false).
Proof.
  intros Hr Ht. apply render_Some in Hr as [_ ->]. simpl in Ht.
  apply list_elem_of_fmap in Ht as (r & -> & _). simpl. split.
  - apply isItemEnqueued_true.
  - intros ->. apply not_true_is_false. rewrite isItemEnqueued_true.
    by intros (? & ? & _ & ? & _).
Qed.

(** X15. After [enqueue (item)] every rendered row that carries the slug
    of [item] is disabled, also the rows of other objects with that slug
    (the copies that a props refresh creates). *)
Theorem enqueue_disables_rows_with_slug item f c s card t :
  slug (heap c item) = Some s →
  render (enqueue item f c) = Some card →
  t ∈ taskUpdates card → taskSlug t = Some s →
  disable t = true.
Proof.
  intros Hs Hr Ht Hts. apply render_Some in Hr as [_ ->]. simpl in Ht.
  apply list_elem_of_fmap in Ht as (r & -> & _). simpl in *.
  apply isItemEnqueued_true. exists item, s. split_and!; [|done|].
  - rewrite queued_enqueue. apply elem_of_union_pair. right.
    apply list_elem_of_here.
  - rewrite heap_enqueue.
    destruct (store_set_from_fields item f (heap c) item) as (-> & _). done.
Qed.

(** X16. The exit handler shows the confirmation prompt exactly when the
    queue is not empty; it never both lets the navigation proceed and
    restores the route, and it leaves the store and the props alone. *)
Theorem exitHandler_prompts_iff_queued confirmed c :
  (WindowConfirm leaveMessage ∈ emitted (exitHandler confirmed) c
   ↔ queued (state c) ≠ [])
  ∧ ¬ (Next ∈ emitted (exitHandler confirmed) c
       ∧ SetTimeoutPageReplace (activityPath (props c)) 0
         ∈ emitted (exitHandler confirmed) c)
  ∧ heap (exitHandler confirmed c) = heap c
  ∧ props (exitHandler confirmed c) = props c.
Proof.
  destruct (decide (queued (state c) = [])) as [Hq|Hq].
  - assert (emitted (exitHandler confirmed) c = [Next]) as ->.
    { apply emitted_app. by rewrite (exitHandler_empty _ _ Hq). }
    rewrite (exitHandler_empty _ _ Hq). split_and!; [|by intros [_ Hin%list_elem_of_singleton]|done..].
    split; [by intros Hin%list_elem_of_singleton|done].
  - assert (emitted (exitHandler confirmed) c =
            [WindowConfirm leaveMessage;
             if confirmed then Next
             else SetTimeoutPageReplace (activityPath (props c)) 0]) as ->.
    { apply emitted_app. rewrite (exitHandler_nonempty _ _ Hq). simpl.
      by rewrite <- (assoc_L (++)). }
    rewrite (exitHandler_nonempty _ _ Hq). split_and!; [|..|done|done].
    + split; [done|]. intros _. apply list_elem_of_here.
    + rewrite !elem_of_cons, !elem_of_nil.
      destruct confirmed; intros [[?|[?|[]]] [?|[?|[]]]]; discriminate.
Qed.
End rows.

(** * Update status: what is read, and from where *)

Section status_more.
Variable getHttpData : string → HttpData.
Implicit Types (siteId : N) (themeId : option string) (d : HttpData).

Lemma getNormalizedStatus_iff (state : string) (b : bool) :
  (getNormalizedStatus state b = Some "inProgress" ↔ state = "pending")
  ∧ (getNormalizedStatus state b = Some "completed" ↔ state = "success" ∧ b = true)
  ∧ (getNormalizedStatus state b = Some "error"
     ↔ state = "failure" ∨ (state = "success" ∧ b = false))
  ∧ (getNormalizedStatus state b = None
     ↔ state ≠ "pending" ∧ state ≠ "failure" ∧ state ≠ "success").
Proof.
  unfold getNormalizedStatus.
  repeat case_decide; subst; destruct b; split_and!; split;
    intros; destruct_and?; destruct_or?; destruct_and?;
    try congruence; try discriminate; auto.
Qed.

Lemma getNormalizedStatus_range (state s : string) (b : bool) :
  getNormalizedStatus state b = Some s →
  s = "inProgress" ∨ s = "error" ∨ s = "completed".
Proof.
  unfold getNormalizedStatus.
  repeat case_decide; try destruct b; intros [= <-]; auto.
Qed.

(** X17. The status of a theme is ['completed'] exactly when the http state
    is ['success'] and [data.themes.0.update] is [null]; it is
    ['inProgress'] exactly for ['pending'], ['error'] exactly for
    ['failure'] or a ['success'] whose [update] is not [null], and [false]
    exactly for any other state.  No other status is ever returned. *)
Theorem getStatusForTheme_iff siteId themeId :
  let d := getHttpData ("theme-update-" +:+ numberToString siteId +:+ "-" +:+ interp themeId) in
  (getStatusForTheme getHttpData siteId themeId = Some "inProgress"
   ↔ httpState d = "pending")
  ∧ (getStatusForTheme getHttpData siteId themeId = Some "completed"
     ↔ httpState d = "success" ∧ themeUpdateIsNull d = true)
  ∧ (getStatusForTheme getHttpData siteId themeId = Some "error"
     ↔ httpState d = "failure"
       ∨ (httpState d = "success" ∧ themeUpdateIsNull d = false))
  ∧ (getStatusForTheme getHttpData siteId themeId = None
     ↔ httpState d ≠ "pending" ∧ httpState d ≠ "failure" ∧ httpState d ≠ "success")
  ∧ (∀ s, getStatusForTheme getHttpData siteId themeId = Some s →
          s = "inProgress" ∨ s = "error" ∨ s = "completed").
Proof.
  intros d. unfold getStatusForTheme. fold d.
  destruct (getNormalizedStatus_iff (httpState d) (themeUpdateIsNull d))
    as (H1 & H2 & H3 & H4).
  split_and!; [done..|]. intros s. apply getNormalizedStatus_range.
Qed.

Lemma append_inj_r (a b1 b2 : string) : a +:+ b1 = a +:+ b2 → b1 = b2.
Proof. induction a as [|x a IH]; simpl; [done|]. intros [= H]. by apply IH. Qed.

Lemma theme_key_inj siteId themeId themeId' :
  "theme-update-" +:+ numberToString siteId +:+ "-" +:+ interp themeId
  = "theme-update-" +:+ numberToString siteId +:+ "-" +:+ interp themeId' →
  interp themeId = interp themeId'.
Proof.
  intros H. apply append_inj_r in H. apply append_inj_r in H.
  by apply append_inj_r in H.
Qed.

Lemma theme_key_not_core siteId siteId' themeId :
  "theme-update-" +:+ numberToString siteId +:+ "-" +:+ interp themeId
  ≠ "core-update-" +:+ numberToString siteId'.
Proof. simpl. discriminate. Qed.

(** X18. For an item that is neither core nor a plugin, [updateSingle]
    issues a request whose key is the one [getStatusForTheme] reads for
    that item's slug: data stored under the request's key is what the
    item's status is computed from, and it changes neither the status of a
    theme with another slug nor the status of core on that site. *)
Theorem theme_status_follows_request (h : Store) (p : Props) item key d :
  type (h item) ≠ "core" → type (h item) ≠ "plugin" →
  requestKey (updateSingleRequest h p item) = Some key →
  getStatusForTheme (withHttpData key d getHttpData) (siteId p) (slug (h item))
  = getNormalizedStatus (httpState d) (themeUpdateIsNull d)
  ∧ (∀ themeId, interp themeId ≠ interp (slug (h item)) →
       getStatusForTheme (withHttpData key d getHttpData) (siteId p) themeId
       = getStatusForTheme getHttpData (siteId p) themeId)
  ∧ getStatusForCore (withHttpData key d getHttpData) (siteId p)
    = getStatusForCore getHttpData (siteId p).
Proof.
  intros Hc Hp. unfold updateSingleRequest.
  rewrite !decide_False by congruence. simpl. intros [= <-].
  unfold getStatusForTheme, getStatusForCore, withHttpData. split_and!.
  - by rewrite decide_True.
  - intros themeId Hne. rewrite decide_False; [done|].
    intros Heq. by apply theme_key_inj in Heq.
  - rewrite decide_False; [done|]. intros Heq. symmetry in Heq.
    by apply theme_key_not_core in Heq.
Qed.

(** X19. For a core item, [updateSingle] issues a request whose key is the
    one [getStatusForCore] reads: the status of core is computed from the
    data stored under that key, with [isUpdateComplete] false, and the
    status of no theme of the site depends on it.  For a plugin no http
    request is issued at all. *)
Theorem core_status_follows_request (h : Store) (p : Props) item d :
  (type (h item) = "core" →
   ∃ key, requestKey (updateSingleRequest h p item) = Some key
     ∧ getStatusForCore (withHttpData key d getHttpData) (siteId p)
       = getNormalizedStatus (httpState d) false
     ∧ ∀ themeId,
         getStatusForTheme (withHttpData key d getHttpData) (siteId p) themeId
         = getStatusForTheme getHttpData (siteId p) themeId)
  ∧ (type (h item) = "plugin" →
     requestKey (updateSingleRequest h p item) = None
     ∧ updateSingleRequest h p item = Dispatch (UpdatePlugin (siteId p) item)).
Proof.
  unfold updateSingleRequest. split.
  - intros Ht. rewrite decide_True by done. eexists. split; [reflexivity|].
    unfold getStatusForTheme, getStatusForCore, withHttpData. split.
    + by rewrite decide_True.
    + intros themeId. rewrite decide_False; [done|]. apply theme_key_not_core.
  - intros Ht. rewrite decide_False by (rewrite Ht; discriminate).
    by rewrite decide_True.
Qed.

Lemma getStatusForCore_not_completed siteId :
  getStatusForCore getHttpData siteId ≠ Some "completed".
Proof.
  unfold getStatusForCore, getNormalizedStatus. repeat case_decide; discriminate.
Qed.

Lemma reconcileItem_not_completed prevProps c item :
  updateStatus (heap c item) ≠ Some "completed" →
  dismissed (state (reconcileItem prevProps c item)) = dismissed (state c)
  ∧ itemsToUpdate (reconcileItem prevProps c item) = itemsToUpdate c.
Proof.
  intros Hnc.
  destruct (reconcileItem_eq prevProps c item) as (Hh & Hp & Hst & _).
  cbv zeta in Hh, Hp, Hst.
  assert (dismissed (state (reconcileItem prevProps c item)) = dismissed (state c))
    as Hd.
  { rewrite Hst. apply merged_dismissed_none.
    intros r Hr%list_elem_of_singleton Ht. subst r.
    by apply transition_status in Ht. }
  split; [exact Hd|].
  apply itemsToUpdate_ext; [done..|]. intros r. by rewrite Hh.
Qed.

(** X20. An item whose status comes from [getStatusForCore] is never
    dismissed by reconciliation: whatever the previous props were, the
    iteratee leaves [dismissed] and the rendered items as they are, so a
    core update stays on the card also after its request succeeded. *)
Theorem core_item_is_never_dismissed siteId prevProps c item :
  updateStatus (heap c item) = getStatusForCore getHttpData siteId →
  dismissed (state (reconcileItem prevProps c item)) = dismissed (state c)
  ∧ itemsToUpdate (reconcileItem prevProps c item) = itemsToUpdate c.
Proof.
  intros Hs. apply reconcileItem_not_completed. rewrite Hs.
  apply getStatusForCore_not_completed.
Qed.
End status_more.

Section connect_facts.
Context {AppState : Type}.
Variable getStatusForPlugin : option AppState → N → option string → option string.
Variable getSite : AppState → N → Connect.Site.
Variable getHttpData : string → HttpData.

Lemma makeUpdatableList_fields (itemList : list Connect.Item) siteId state :
  length (Connect.makeUpdatableList getStatusForPlugin getHttpData itemList siteId state)
  = length itemList
  ∧ Connect.itemId
      <$> Connect.makeUpdatableList getStatusForPlugin getHttpData itemList siteId state
    = Connect.itemId <$> itemList
  ∧ (λ i, slug (Connect.itemObj i))
      <$> Connect.makeUpdatableList getStatusForPlugin getHttpData itemList siteId state
    = (λ i, slug (Connect.itemObj i)) <$> itemList
  ∧ (λ i, type (Connect.itemObj i))
      <$> Connect.makeUpdatableList getStatusForPlugin getHttpData itemList siteId state
    = (λ i, type (Connect.itemObj i)) <$> itemList.
Proof.
  unfold Connect.makeUpdatableList. rewrite length_fmap.
  split_and!; [done|..]; rewrite <- list_fmap_compose; by apply list_fmap_ext.
Qed.

(** X21. [mapStateToProps] keeps the plugins and the themes in number and
    order, with their ids, slugs and types; it gives every item of a type
    other than ['plugin'] the status of the theme with its slug; and it
    keeps at most the first core entry, whose status is never
    ['completed']. *)
Theorem mapStateToProps_lists (state : AppState) (siteId : N)
    (plugins themes core : list Connect.Item) :
  let sp := Connect.mapStateToProps getStatusForPlugin getSite getHttpData
                                    state siteId plugins themes core in
  (λ i, slug (Connect.itemObj i)) <$> Connect.pluginWithUpdate sp
  = (λ i, slug (Connect.itemObj i)) <$> plugins
  ∧ (λ i, slug (Connect.itemObj i)) <$> Connect.themeWithUpdate sp
    = (λ i, slug (Connect.itemObj i)) <$> themes
  ∧ (λ i, type (Connect.itemObj i)) <$> Connect.pluginWithUpdate sp
    = (λ i, type (Connect.itemObj i)) <$> plugins
  ∧ (λ i, type (Connect.itemObj i)) <$> Connect.themeWithUpdate sp
    = (λ i, type (Connect.itemObj i)) <$> themes
  ∧ (∀ i, i ∈ Connect.pluginWithUpdate sp ++ Connect.themeWithUpdate sp →
          type (Connect.itemObj i) ≠ "plugin" →
          updateStatus (Connect.itemObj i)
          = getStatusForTheme getHttpData siteId (slug (Connect.itemObj i)))
  ∧ length (Connect.coreWithUpdate sp) = min 1 (length core)
  ∧ (λ i, slug (Connect.itemObj i)) <$> Connect.coreWithUpdate sp
    = (λ i, slug (Connect.itemObj i)) <$> take 1 core
  ∧ (∀ i, i ∈ Connect.coreWithUpdate sp →
          updateStatus (Connect.itemObj i) ≠ Some "completed").
Proof.
  intros sp. subst sp. simpl.
  destruct (makeUpdatableList_fields plugins siteId (Some state)) as (_ & _ & -> & ->).
  destruct (makeUpdatableList_fields themes siteId None) as (_ & _ & -> & ->).
  split_and!; [done..| | | |].
  - intros i Hin Hnp. unfold Connect.makeUpdatableList in Hin.
    apply elem_of_app in Hin as [Hin|Hin];
      apply list_elem_of_fmap in Hin as (j & -> & _); simpl in *;
      by rewrite decide_False by congruence.
  - by destruct core.
  - by destruct core.
  - destruct core as [|core0 rest]; intros i Hin.
    + by apply elem_of_nil in Hin.
    + apply list_elem_of_singleton in Hin as ->. simpl.
      apply getStatusForCore_not_completed.
Qed.
End connect_facts.

(** * The onboarding checklist *)

Module ChecklistFacts.
Import Checklist.

Section facts.
Variable translate : Phrase → string.
Variable replace : string → string → string → string.
Variable isDesktop : bool.
Implicit Types (task srv : gmap string Value) (fromServer : gmap string (gmap string Value)).

Lemma mergeTask_lookup id (task taskFromServer : option (gmap string Value)) k :
  mergeTask id task taskFromServer !! k
  = match taskFromServer ≫= (.!! k) with
    | Some v => Some v
    | None =>
        match task ≫= (.!! k) with
        | Some v => Some v
        | None => if decide (k = "id") then Some (VString id) else None
        end
    end.
Proof.
  unfold mergeTask. rewrite !lookup_union.
  assert (({[ "id" := VString id ]} : gmap string Value) !! k
          = if decide (k = "id") then Some (VString id) else None) as ->.
  { destruct (decide (k = "id")) as [->|Hne];
      [by rewrite lookup_singleton_eq|by rewrite lookup_singleton_ne]. }
  destruct taskFromServer as [srv|], task as [t|]; simpl;
    rewrite ?lookup_empty;
    try destruct (srv !! k); try destruct (t !! k);
    by destruct (decide (k = "id")).
Qed.

(** The static entries of the ids of [sequence]. *)
Lemma sequence_static id :
  id ∈ sequence →
  is_Some (tasks translate !! id ≫= (.!! "title"))
  ∧ is_Some (tasks translate !! id ≫= (.!! "description"))
  ∧ is_Some (tasks translate !! id ≫= (.!! "completedTitle"))
  ∧ (tasks translate !! id ≫= (.!! "id")) = None
  ∧ ((tasks translate !! id ≫= (.!! "url")) = None
     ∨ ∃ s, (tasks translate !! id ≫= (.!! "url")) = Some (VString s) ∧ s ≠ "").
Proof.
  unfold sequence. rewrite !elem_of_cons, elem_of_nil.
  intros [->|[->|[->|[->|[->|[->|[->|[->|[]]]]]]]]];
    (split_and!;
     [vm_compute; by eexists..
     |vm_compute; reflexivity
     |vm_compute;
      first [by left | right; eexists; split; [reflexivity|discriminate]]]).
Qed.

Lemma onboardingTasks_Some fromServer :
  onboardingTasks translate (Some {| serverTasks := Some fromServer |})
  = Some ((λ id, mergeTask id (tasks translate !! id) (fromServer !! id)) <$> sequence).
Proof. reflexivity. Qed.

(** X22. [onboardingTasks] returns [null] exactly when the checklist or its
    [tasks] are missing.  Otherwise it returns eight tasks, one per entry
    of [sequence] and in that order, whatever the server sent (server tasks
    with other ids are dropped); in each task a property sent by the server
    wins, every other property is the static one, and [title],
    [description], [completedTitle] and [id] are always there. *)
Theorem onboardingTasks_merges_server_data (checklist : option ChecklistData) :
  (onboardingTasks translate checklist = None
   ↔ checklist = None ∨ ∃ cl, checklist = Some cl ∧ serverTasks cl = None)
  ∧ ∀ fromServer,
      checklist = Some {| serverTasks := Some fromServer |} →
      ∃ l, onboardingTasks translate checklist = Some l
        ∧ length l = 8
        ∧ ∀ i id, sequence !! i = Some id →
            ∃ t, l !! i = Some t
              ∧ (∀ srv k v, fromServer !! id = Some srv → srv !! k = Some v →
                            t !! k = Some v)
              ∧ (∀ k, (fromServer !! id ≫= (.!! k)) = None → k ≠ "id" →
                      t !! k = (tasks translate !! id ≫= (.!! k)))
              ∧ is_Some (t !! "title") ∧ is_Some (t !! "description")
              ∧ is_Some (t !! "completedTitle") ∧ is_Some (t !! "id").
Proof.
  split.
  - destruct checklist as [[[fromServer|]]|]; simpl.
    + split; [done|]. intros [|(cl & [= <-] & ?)]; done.
    + split; [|done]. intros _. right. by eexists.
    + split; [|done]. intros _. by left.
  - intros fromServer ->. rewrite onboardingTasks_Some. eexists.
    split; [reflexivity|]. split; [by rewrite length_fmap|].
    intros i id Hi. rewrite list_lookup_fmap, Hi. simpl. eexists.
    split; [reflexivity|].
    destruct (sequence_static id) as (Htitle & Hdesc & Hdone & Hid & _);
      [by eapply list_elem_of_lookup_2|].
    assert (∀ k, is_Some (tasks translate !! id ≫= (.!! k)) ∨ k = "id" →
                 is_Some (mergeTask id (tasks translate !! id) (fromServer !! id) !! k))
      as Hsome.
    { intros k Hk. rewrite mergeTask_lookup.
      destruct (fromServer !! id ≫= (.!! k)); [by eexists|].
      destruct (tasks translate !! id ≫= (.!! k)); [by eexists|].
      destruct Hk as [[? [=]]| ->]. by eexists. }
    split_and!.
    + intros srv k v Hsrv Hk. rewrite mergeTask_lookup, Hsrv. simpl. by rewrite Hk.
    + intros k Hk Hne. rewrite mergeTask_lookup, Hk.
      destruct (tasks translate !! id ≫= (.!! k)); [done|].
      by rewrite decide_False.
    + apply Hsome. by left.
    + apply Hsome. by left.
    + apply Hsome. by left.
    + apply Hsome. by right.
Qed.

(** X23. When no task sent by the server carries an [id] property, the ids
    of the returned tasks are the entries of [sequence], in order; a server
    task that carries one overrides the id of its entry. *)
Theorem onboardingTasks_ids fromServer :
  ((∀ id srv, fromServer !! id = Some srv → srv !! "id" = None) →
   ∃ l, onboardingTasks translate (Some {| serverTasks := Some fromServer |}) = Some l
     ∧ (λ t : gmap string Value, t !! "id") <$> l
       = (λ id, Some (VString id)) <$> sequence)
  ∧ ∀ i id srv v, sequence !! i = Some id → fromServer !! id = Some srv →
      srv !! "id" = Some v →
      ∃ l t, onboardingTasks translate (Some {| serverTasks := Some fromServer |}) = Some l
        ∧ l !! i = Some t ∧ t !! "id" = Some v.
Proof.
  split.
  - intros Hno. rewrite onboardingTasks_Some. eexists. split; [reflexivity|].
    rewrite <- list_fmap_compose. apply list_fmap_ext.
    intros i id Hid%list_elem_of_lookup_2. simpl. rewrite mergeTask_lookup.
    destruct (sequence_static id Hid) as (_ & _ & _ & Hnoid & _).
    rewrite Hnoid.
    destruct (fromServer !! id) as [srv|] eqn:Hsrv; simpl; [|done].
    by rewrite (Hno id srv Hsrv).
  - intros i id srv v Hi Hsrv Hv. rewrite onboardingTasks_Some.
    eexists _, _. split; [reflexivity|].
    rewrite list_lookup_fmap, Hi. simpl. split; [reflexivity|].
    rewrite mergeTask_lookup, Hsrv. simpl. by rewrite Hv.
Qed.

Lemma taskUrl_Some task siteSlug url :
  taskUrl replace task siteSlug = Some url →
  (url = None ∧ truthy (task !! "url") = false)
  ∨ ∃ s, task !! "url" = Some (VString s) ∧ s ≠ ""
         ∧ url = Some (replace s "$siteSlug" siteSlug).
Proof.
  unfold taskUrl. destruct (task !! "url") as [[s|b|n| |]|] eqn:Hu; simpl.
  - destruct (decide (s = "")) as [->|Hs].
    + intros [= <-]. by left.
    + rewrite bool_decide_false by done. intros [= <-]. right. eauto.
  - destruct b; [done|]. intros [= <-]. by left.
  - destruct (decide (n = 0%Z)) as [->|Hn].
    + intros [= <-]. by left.
    + by rewrite bool_decide_false.
  - intros [= <-]. by left.
  - done.
  - intros [= <-]. by left.
Qed.

Lemma taskUrl_None task siteSlug :
  taskUrl replace task siteSlug = None
  ↔ ∃ v, task !! "url" = Some v ∧ truthy (Some v) = true ∧ ∀ s, v ≠ VString s.
Proof.
  unfold taskUrl. split.
  - destruct (task !! "url") as [[s|b|n| |]|] eqn:Hu; simpl.
    + by destruct (bool_decide (s = "")).
    + destruct b; [|done]. intros _. by exists (VBool true).
    + destruct (decide (n = 0%Z)) as [->|Hn]; [done|].
      intros _. exists (VNumber n).
      split_and!; [done| |done]. simpl. by rewrite bool_decide_false.
    + done.
    + intros _. by exists VObject.
    + done.
  - intros (v & -> & Ht & Hns). destruct v as [s|b|n| |]; simpl in *.
    + by destruct (Hns s).
    + by rewrite Ht.
    + by rewrite Ht.
    + done.
    + done.
Qed.

Lemma launchTask_None task location siteSlug :
  launchTask replace isDesktop task location siteSlug = None
  ↔ taskUrl replace task siteSlug = None.
Proof.
  unfold launchTask. destruct (taskUrl replace task siteSlug); [|done].
  destruct (truthy (task !! "completed")); [done|].
  by destruct (_ && _).
Qed.

Lemma elem_of_pageIf url c :
  c ∈ pageIf url → ∃ u, c = Page u ∧ url = Some u ∧ u ≠ "".
Proof.
  unfold pageIf. destruct url as [u|]; simpl; [|by intros ?%elem_of_nil].
  case_bool_decide; simpl; [by intros ?%elem_of_nil|].
  intros ->%list_elem_of_singleton. eauto.
Qed.

Lemma elem_of_tourIf (tour : option Value) c :
  c ∈ match tour with
      | Some t => if truthy tour && isDesktop then [RequestTour t] else []
      | None => []
      end →
  ∃ t, c = RequestTour t ∧ tour = Some t ∧ truthy tour = true ∧ isDesktop = true.
Proof.
  destruct tour as [t|]; [|by intros ?%elem_of_nil].
  destruct (truthy (Some t) && isDesktop) eqn:Hd; [|by intros ?%elem_of_nil].
  intros ->%list_elem_of_singleton. apply andb_true_iff in Hd as [? ?]. eauto.
Qed.

Lemma launchTask_cases task location siteSlug calls :
  launchTask replace isDesktop task location siteSlug = Some calls →
  ∃ url, taskUrl replace task siteSlug = Some url
    ∧ ((truthy (task !! "completed") = true ∧ calls = pageIf url)
       ∨ (truthy (task !! "completed") = false ∧ calls = [])
       ∨ (truthy (task !! "completed") = false
          ∧ calls = Track "calypso_checklist_task_start" "new_blog"
                          (task !! "id") location
                    :: pageIf url
                    ++ match task !! "tour" with
                       | Some t => if truthy (task !! "tour") && isDesktop
                                   then [RequestTour t] else []
                       | None => []
                       end)).
Proof.
  unfold launchTask. destruct (taskUrl replace task siteSlug) as [url|]; [|done].
  intros Hl. exists url. split; [done|].
  destruct (truthy (task !! "completed")).
  - left. by injection Hl as <-.
  - right. destruct (_ && _).
    + left. by injection Hl as <-.
    + right. by injection Hl as <-.
Qed.

Lemma launchTask_pages task location siteSlug calls u :
  launchTask replace isDesktop task location siteSlug = Some calls →
  Page u ∈ calls →
  u ≠ "" ∧ ∃ s, task !! "url" = Some (VString s)
                ∧ u = replace s "$siteSlug" siteSlug.
Proof.
  intros (url & Hurl & Hcases)%launchTask_cases Hu.
  assert (Page u ∈ pageIf url) as Hin.
  { destruct Hcases as [[_ ->]|[[_ ->]|[_ ->]]]; [done|by apply elem_of_nil in Hu|].
    apply elem_of_cons in Hu as [[=]|Hu].
    apply elem_of_app in Hu as [Hu|Hu]; [done|].
    by apply elem_of_tourIf in Hu as (t & [=] & _). }
  apply elem_of_pageIf in Hin as (u' & [= <-] & -> & Hne). split; [done|].
  apply taskUrl_Some in Hurl as [[? _]|(s & Hs & _ & [= ->])]; [done|eauto].
Qed.

(** X24. What [launchTask] does when it returns.  For a completed task it
    only navigates (when there is a url) and never tracks or starts a
    tour.  For any other task it either does nothing or tracks
    [calypso_checklist_task_start] first and exactly once.  A tour is
    requested only on a desktop viewport and for a task that is not
    completed, and a page is opened only at the task's url with
    ['$siteSlug'] replaced, never at an empty url. *)
Theorem launchTask_calls task location siteSlug calls :
  launchTask replace isDesktop task location siteSlug = Some calls →
  (truthy (task !! "completed") = true →
   calls = [] ∨ ∃ u, calls = [Page u])
  ∧ (truthy (task !! "completed") = false →
     calls = []
     ∨ ∃ rest, calls = Track "calypso_checklist_task_start" "new_blog"
                             (task !! "id") location :: rest
               ∧ ∀ c, c ∈ rest → isTrack c = false)
  ∧ (∀ t, RequestTour t ∈ calls →
          isDesktop = true ∧ truthy (task !! "completed") = false
          ∧ task !! "tour" = Some t ∧ truthy (Some t) = true)
  ∧ (∀ u, Page u ∈ calls →
          u ≠ "" ∧ ∃ s, task !! "url" = Some (VString s)
                        ∧ u = replace s "$siteSlug" siteSlug).
Proof.
  intros Hl. pose proof Hl as (url & Hurl & Hcases)%launchTask_cases.
  split_and!.
  - intros Hdone. destruct Hcases as [[_ ->]|[[Hf _]|[Hf _]]]; [|congruence..].
    unfold pageIf. destruct url as [u|]; [|by left].
    destruct (urlTruthy (Some u)); [right; eauto|by left].
  - intros Hnot. destruct Hcases as [[Ht _]|[[_ ->]|[_ ->]]]; [congruence|by left|].
    right. eexists. split; [reflexivity|].
    intros c [Hc|Hc]%elem_of_app.
    + by apply elem_of_pageIf in Hc as (u & -> & _).
    + by apply elem_of_tourIf in Hc as (t & -> & _).
  - intros t Ht. destruct Hcases as [[_ ->]|[[_ ->]|[Hf ->]]].
    + by apply elem_of_pageIf in Ht as (u & [=] & _).
    + by apply elem_of_nil in Ht.
    + apply elem_of_cons in Ht as [[=]|Ht].
      apply elem_of_app in Ht as [Ht|Ht].
      * by apply elem_of_pageIf in Ht as (u & [=] & _).
      * apply elem_of_tourIf in Ht as (t' & [= <-] & Htour & Htr & Hd).
        split_and!; [done..|]. by rewrite <- Htour.
  - intros u Hu. exact (launchTask_pages _ _ _ _ _ Hl Hu).
Qed.

(** X25. [launchTask] throws exactly when the task's [url] is a truthy
    value that is not a string; nothing has been called by then. *)
Theorem launchTask_throws_iff task location siteSlug :
  launchTask replace isDesktop task location siteSlug = None
  ↔ ∃ v, task !! "url" = Some v ∧ truthy (Some v) = true ∧ ∀ s, v ≠ VString s.
Proof. by rewrite launchTask_None, taskUrl_None. Qed.

(** X26. As long as the server sends no [url] property, [launchTask]
    never throws on a task returned by [onboardingTasks], and every page it
    opens is a static url of the table with ['$siteSlug'] replaced. *)
Theorem onboarding_tasks_launch fromServer l t location siteSlug :
  (∀ id srv, fromServer !! id = Some srv → srv !! "url" = None) →
  onboardingTasks translate (Some {| serverTasks := Some fromServer |}) = Some l →
  t ∈ l →
  ∃ calls, launchTask replace isDesktop t location siteSlug = Some calls
    ∧ ∀ u, Page u ∈ calls →
        ∃ id s, id ∈ sequence
          ∧ (tasks translate !! id ≫= (.!! "url")) = Some (VString s)
          ∧ u = replace s "$siteSlug" siteSlug.
Proof.
  intros Hno Hl Ht. rewrite onboardingTasks_Some in Hl.
  apply (inj Some) in Hl. subst l.
  apply list_elem_of_fmap in Ht as (id & -> & Hid).
  set (t := mergeTask id (tasks translate !! id) (fromServer !! id)).
  destruct (sequence_static id Hid) as (_ & _ & _ & _ & Hurl).
  assert (t !! "url" = (tasks translate !! id ≫= (.!! "url"))) as Htu.
  { unfold t. rewrite mergeTask_lookup.
    assert ((fromServer !! id ≫= (.!! "url")) = None) as ->.
    { destruct (fromServer !! id) as [srv|] eqn:Hsrv; simpl; [|done].
      by apply (Hno id). }
    by destruct (tasks translate !! id ≫= (.!! "url")). }
  destruct (launchTask replace isDesktop t location siteSlug) as [calls|] eqn:Hl.
  - exists calls. split; [done|]. intros u Hu.
    destruct (launchTask_pages t location siteSlug calls u Hl Hu) as (_ & s & Hs & ->).
    exists id, s. by rewrite <- Htu.
  - apply (proj1 (launchTask_None _ _ _)) in Hl.
    apply (proj1 (taskUrl_None _ _)) in Hl as (v & Hv & Htr & Hns).
    rewrite Htu in Hv. destruct Hurl as [Hnone|(s & Hs & _)]; [congruence|].
    rewrite Hs in Hv. injection Hv as <-. by destruct (Hns s).
Qed.
End facts.
End ChecklistFacts.

(** * The activity-log search box *)

Module SearchFacts.
Import Search.

Section facts.
Context {V : Type}.
Implicit Types (filter : gmap string V).

Lemma hasTokens_true filter :
  hasTokens filter = true ↔ ∃ k, k ≠ "page" ∧ is_Some (filter !! k).
Proof.
  unfold hasTokens, omit. rewrite negb_true_iff, bool_decide_eq_false. split.
  - intros Hne. apply map_choose in Hne as (k & x & Hk).
    apply lookup_delete_Some in Hk as [Hkp Hk]. exists k. split; [done|by eexists].
  - intros (k & Hkp & x & Hk) Hempty.
    assert (delete "page" filter !! k = Some x) as Hd
      by by apply lookup_delete_Some.
    by rewrite Hempty, lookup_empty in Hd.
Qed.

(** X27. [hasTokens] holds exactly when the filter has a property other
    than [page]; setting or removing [page] never changes it, and an empty
    filter has no tokens.  [render] shows the tokens exactly then, next to
    the two fixed filter categories. *)
Theorem hasTokens_ignores_page filter (v : V) :
  (hasTokens filter = true ↔ ∃ k, k ≠ "page" ∧ is_Some (filter !! k))
  ∧ hasTokens (<["page" := v]> filter) = hasTokens filter
  ∧ hasTokens (delete "page" filter) = hasTokens filter
  ∧ hasTokens (∅ : gmap string V) = false
  ∧ hasTokens ({["page" := v]} : gmap string V) = false
  ∧ showTokens (render filter) = hasTokens filter
  ∧ length (categories (render filter)) = 2.
Proof.
  split_and!.
  - apply hasTokens_true.
  - unfold hasTokens, omit. by rewrite delete_insert_eq.
  - unfold hasTokens, omit. by rewrite delete_delete_eq.
  - unfold hasTokens, omit. rewrite delete_empty. by rewrite bool_decide_true.
  - unfold hasTokens, omit. rewrite delete_singleton_eq. by rewrite bool_decide_true.
  - done.
  - done.
Qed.
End facts.
End SearchFacts.

(** * More of the sample site *)

Section more_examples.

Lemma exampleComp_idle : ¬ blocked exampleComp.
Proof.
  intros (r & Hr & Hs). unfold candidate, inProgress in *. simpl in Hr, Hs.
  rewrite !list_elem_of_singleton in Hr. destruct Hr as [-> | [-> | ->]]; discriminate.
Defined.

(** [updateAll] on a queue that holds the plugin. *)
Lemma updateAll_example :
  NoDup (queued (state exampleQueued))
  ∧ queued (state exampleQueued) `prefix_of` queued (state (updateAll exampleQueued))
  ∧ queued (state (updateAll exampleQueued)) = [1; 0; 2].
Proof.
  assert (NoDup (queued (state exampleQueued))) as Hnd by apply NoDup_singleton.
  destruct (updateAll_queues_candidates exampleQueued) as (_ & Hpre & _).
  split_and!; [exact Hnd|exact (Hpre Hnd)|reflexivity].
Defined.

(** [updateAll] on the idle site starts core. *)
Lemma updateAll_idle_example :
  queued (state exampleComp) = []
  ∧ ¬ blocked exampleComp
  ∧ queued (state (updateAll exampleComp)) !! 0 = Some 0
  ∧ emitted updateAll exampleComp !! 2
    = Some (RequestHttpData "core-update-7" "POST" "/sites/7/core/update" None).
Proof.
  destruct (updateAll_starts_first_candidate exampleComp 0 [1; 2]
              eq_refl exampleComp_idle eq_refl) as (Hem & Hhd & _).
  split_and!; [reflexivity|exact exampleComp_idle|exact Hhd|].
  rewrite Hem. reflexivity.
Defined.

Lemma exampleTwoQueued_idle : ¬ blocked exampleTwoQueued.
Proof.
  intros (r & Hr & Hs). unfold candidate, inProgress in *. simpl in Hr.
  rewrite !list_elem_of_singleton in Hr.
  destruct Hr as [-> | [-> | ->]]; vm_compute in Hs; discriminate.
Defined.

(** [dequeue] with the plugin and the theme queued starts the theme. *)
Lemma dequeue_example :
  queued (state exampleTwoQueued) = [1; 2]
  ∧ ¬ blocked exampleTwoQueued
  ∧ queued (state (dequeue exampleTwoQueued)) = [2]
  ∧ emitted dequeue exampleTwoQueued !! 1
    = Some (RequestHttpData "theme-update-7-dara" "POST" "/sites/7/themes"
                            (Some ("update", Some "dara"))).
Proof.
  destruct (dequeue_starts_next exampleTwoQueued) as (Hnext & _).
  destruct (Hnext 1 2 [] eq_refl exampleTwoQueued_idle) as [Hem Hq].
  split_and!; [reflexivity|exact exampleTwoQueued_idle|exact Hq|].
  rewrite Hem. reflexivity.
Defined.

(** A retry of the plugin on the idle site is tracked as such. *)
Lemma enqueue_idle_example :
  ¬ blocked exampleComp
  ∧ queued (state exampleComp) = []
  ∧ emitted (enqueue 1 "_from_error") exampleComp !! 0
    = Some (Dispatch (RecordTracksEvent
                        "calypso_activitylog_tasklist_update_plugin_from_error"
                        (Some (Some "akismet")))).
Proof.
  destruct (enqueue_starts_head 1 "_from_error" exampleComp exampleComp_idle)
    as [Hempty _].
  split_and!; [exact exampleComp_idle|reflexivity|].
  exact (proj2 (Hempty eq_refl)).
Defined.

(** The theme object is untouched by calls that enqueue the plugin. *)
Lemma frame_example :
  (2 ∉ enqueueArguments [MEnqueue 1 ""; MUpdateAll; MDequeue])
  ∧ heap (runMethods [MEnqueue 1 ""; MUpdateAll; MDequeue] exampleComp) 2
    = exampleStore 2.
Proof.
  assert (2 ∉ enqueueArguments [MEnqueue 1 ""; MUpdateAll; MDequeue]) as Hout.
  { simpl. intros Hin%list_elem_of_singleton. discriminate. }
  split; [exact Hout|].
  destruct (methods_only_write_from [MEnqueue 1 ""; MUpdateAll; MDequeue]
                                    exampleComp 2) as (_ & _ & _ & _ & _ & Hsame).
  exact (Hsame Hout).
Defined.

Lemma exampleComp_wellFormed : wellFormed (heap exampleComp) (props exampleComp).
Proof.
  unfold wellFormed, typedList, slugsDistinct. simpl.
  split_and!.
  - by intros r ->%list_elem_of_singleton.
  - by intros r ->%list_elem_of_singleton.
  - by intros r ->%list_elem_of_singleton.
  - by intros r r' s ->%list_elem_of_singleton ->%list_elem_of_singleton.
  - by intros r r' s ->%list_elem_of_singleton ->%list_elem_of_singleton.
  - by intros r r' s ->%list_elem_of_singleton ->%list_elem_of_singleton.
Defined.

(** A re-render of the example site changes nothing. *)
Lemma same_props_example :
  wellFormed (heap exampleComp) (props exampleComp)
  ∧ componentDidUpdate (props exampleComp) exampleComp = exampleComp.
Proof.
  split; [exact exampleComp_wellFormed|].
  exact (componentDidUpdate_same_props exampleComp exampleComp_wellFormed).
Defined.

Lemma example_neverStarted :
  neverStarted (heap (exampleRefreshed [4])) (exampleProps [1]).
Proof.
  intros r Hr. simpl in Hr. rewrite !list_elem_of_singleton in Hr.
  destruct Hr as [-> | [-> | ->]]; reflexivity.
Defined.

(** The plugin is seen completed, but was never seen in progress. *)
Lemma never_started_example :
  neverStarted (heap (exampleRefreshed [4])) (exampleProps [1])
  ∧ componentDidUpdate (exampleProps [1]) (exampleRefreshed [4])
    = exampleRefreshed [4].
Proof.
  split; [exact example_neverStarted|].
  exact (componentDidUpdate_never_started _ _ example_neverStarted).
Defined.

Lemma example_none_completed (l : list ref) (h : Store) :
  Forall (fun r => bool_decide (updateStatus (h r) ≠ Some "completed")) l →
  ∀ r, r ∈ l → updateStatus (h r) ≠ Some "completed".
Proof.
  intros Hall r Hr. rewrite Forall_forall in Hall.
  exact (bool_decide_unpack _ (Hall r Hr)).
Defined.

(** The plugin went from ['inProgress'] to ['completed']; the theme after
    it in the list has no status. *)
Lemma completed_example :
  allUpdatableItems (props (exampleRefreshed [4])) = [0] ++ 4 :: [2]
  ∧ prevItemWithUpdate (heap (exampleRefreshed [4])) (exampleProps [3])
                       (heap (exampleRefreshed [4]) 4) = Some 3
  ∧ updateStatus (heap (exampleRefreshed [4]) 3) = Some "inProgress"
  ∧ updateStatus (heap (exampleRefreshed [4]) 4) = Some "completed"
  ∧ slug (heap (exampleRefreshed [4]) 4) = Some "akismet"
  ∧ dismissed (state (componentDidUpdate (exampleProps [3]) (exampleRefreshed [4])))
    = [Some "akismet"]
  ∧ queued (state (componentDidUpdate (exampleProps [3]) (exampleRefreshed [4])))
    = [].
Proof.
  assert ("inProgress" ≠ "completed") as Hne by discriminate.
  destruct (completed_item_leaves_the_card
              (exampleProps [3]) (exampleRefreshed [4]) [0] 4 [2] 3
              "inProgress" "akismet" eq_refl
              (example_none_completed [2] (heap (exampleRefreshed [4]))
                 ltac:(repeat constructor))
              eq_refl eq_refl eq_refl Hne eq_refl) as (_ & Hd & _ & _ & Hq).
  split_and!; [reflexivity..|exact Hd|exact Hq].
Defined.

Lemma example_candidates (c : Comp) (P : ref → Prop) :
  Forall P (coreWithUpdate (props c) ++ pluginWithUpdate (props c)
            ++ themeWithUpdate (props c)) →
  ∀ r, candidate c r → P r.
Proof.
  intros Hall r Hr. rewrite Forall_forall in Hall. apply Hall.
  rewrite !elem_of_app. exact Hr.
Defined.

(** The plugin went from ['inProgress'] to ['error'] and is retried. *)
Lemma failed_example :
  candidate (exampleRefreshed [5]) 5
  ∧ (∀ r, candidate (exampleRefreshed [5]) r →
          updateStatus (heap (exampleRefreshed [5]) r) ≠ Some "completed")
  ∧ prevItemWithUpdate (heap (exampleRefreshed [5])) (exampleProps [3])
                       (heap (exampleRefreshed [5]) 5) = Some 3
  ∧ updateStatus (heap (exampleRefreshed [5]) 3) = Some "inProgress"
  ∧ updateStatus (heap (exampleRefreshed [5]) 5) = Some "error"
  ∧ NoDup (queued (state (exampleRefreshed [5])))
  ∧ (5 ∉ drop 1 (queued (state (exampleRefreshed [5]))))
  ∧ queued (state (click (ClickEnqueue 5 "_from_error")
                         (componentDidUpdate (exampleProps [3])
                                             (exampleRefreshed [5]))))
    = [5].
Proof.
  assert ("inProgress" ≠ "error") as Hne by discriminate.
  assert (candidate (exampleRefreshed [5]) 5) as Hc
    by (right; left; apply list_elem_of_here).
  assert (∀ r, candidate (exampleRefreshed [5]) r →
               updateStatus (heap (exampleRefreshed [5]) r) ≠ Some "completed")
    as Hnone.
  { apply (example_candidates (exampleRefreshed [5])
             (fun r => updateStatus (heap (exampleRefreshed [5]) r)
                       ≠ Some "completed")).
    repeat constructor; discriminate. }
  assert (NoDup (queued (state (exampleRefreshed [5])))) as Hnd
    by apply NoDup_singleton.
  assert (5 ∉ drop 1 (queued (state (exampleRefreshed [5])))) as Hout
    by apply not_elem_of_nil.
  destruct (failed_item_can_be_retried
              (exampleProps [3]) (exampleRefreshed [5]) 5 3 "inProgress"
              Hc Hnone eq_refl eq_refl eq_refl Hne) as (_ & _ & _ & _ & _ & Hretry).
  split_and!; [exact Hc|exact Hnone|reflexivity..|exact Hnd|exact Hout|
               exact (Hretry Hnd Hout)].
Defined.

(** The plugin and the theme were both queued and both completed between
    two refreshes: only the theme is dismissed, the plugin's row stays, and
    the theme stays in the queue. *)
Lemma completed_together_example :
  allUpdatableItems (props exampleBothCompleted) = [0; 4] ++ 7 :: []
  ∧ prevItemWithUpdate (heap exampleBothCompleted) (exampleBothProps 3 6)
                       (heap exampleBothCompleted 7) = Some 6
  ∧ updateStatus (heap exampleBothCompleted 4) = Some "completed"
  ∧ updateStatus (heap exampleBothCompleted 7) = Some "completed"
  ∧ transition (exampleBothProps 3 6) exampleBothCompleted 4 = Some TurnedCompleted
  ∧ queued (state exampleBothCompleted) = [1; 2]
  ∧ 4 ∈ itemsToUpdate (componentDidUpdate (exampleBothProps 3 6) exampleBothCompleted)
  ∧ dismissed (state (componentDidUpdate (exampleBothProps 3 6) exampleBothCompleted))
    = [Some "dara"]
  ∧ queued (state (componentDidUpdate (exampleBothProps 3 6) exampleBothCompleted))
    = [2].
Proof.
  assert ("inProgress" ≠ "completed") as Hne by discriminate.
  assert (4 ∈ itemsToUpdate exampleBothCompleted) as Hin
    by (right; left).
  assert (slug (heap exampleBothCompleted 4) ≠ Some "dara") as Hs by discriminate.
  destruct (completed_together_stays_on_the_card
              (exampleBothProps 3 6) exampleBothCompleted [0; 4] 7 [] 6
              "inProgress" "dara" 4 eq_refl
              (example_none_completed [] (heap exampleBothCompleted)
                 ltac:(repeat constructor))
              eq_refl eq_refl eq_refl Hne eq_refl Hin Hs) as (Hrow & _ & Hq).
  split_and!; [reflexivity..|exact Hrow|reflexivity|exact Hq].
Defined.

(** "Dismiss all" with the menu's click event, then [updateAll]. *)
Lemma dismiss_all_example :
  slug (heap exampleComp 9) = None
  ∧ render (dismiss 9 exampleComp) = None
  ∧ render (runMethods [MUpdateAll] (dismiss 9 exampleComp)) = None.
Proof.
  split; [reflexivity|].
  exact (dismiss_all_hides_the_card 9 [MUpdateAll] exampleComp eq_refl).
Defined.

(** The card of the example site: three rows and an enabled button. *)
Lemma render_rows_example :
  render exampleComp = Some exampleCard
  ∧ toUpdate <$> taskUpdates exampleCard = [0; 1; 2]
  ∧ heading exampleCard = HeadingCount 3.
Proof.
  destruct (render_rows exampleComp exampleCard eq_refl) as (Hrows & _ & _ & _ & Hh & _).
  split_and!; [reflexivity|exact Hrows|exact Hh].
Defined.

(** With the plugin queued, the theme's row is not disabled. *)
Lemma row_disabled_example :
  render exampleQueued = Some exampleQueuedCard
  ∧ taskUpdateOf exampleQueued 2 ∈ taskUpdates exampleQueuedCard
  ∧ ¬ (∃ r s, r ∈ queued (state exampleQueued)
              ∧ taskSlug (taskUpdateOf exampleQueued 2) = Some s
              ∧ slug (heap exampleQueued r) = Some s).
Proof.
  assert (taskUpdateOf exampleQueued 2 ∈ taskUpdates exampleQueuedCard) as Hin.
  { do 2 apply list_elem_of_further. apply list_elem_of_here. }
  split_and!; [reflexivity|exact Hin|].
  destruct (row_disabled_iff_slug_queued exampleQueued exampleQueuedCard
              (taskUpdateOf exampleQueued 2) eq_refl Hin) as [Hiff _].
  intros Hq. apply Hiff in Hq. discriminate Hq.
Defined.

(** Enqueueing object 1 disables the row of its copy, object 3. *)
Lemma enqueue_disables_example :
  slug (heap exampleCopies 1) = Some "akismet"
  ∧ render (enqueue 1 "" exampleCopies) = Some exampleCopiesCard
  ∧ taskUpdateOf (enqueue 1 "" exampleCopies) 3 ∈ taskUpdates exampleCopiesCard
  ∧ taskSlug (taskUpdateOf (enqueue 1 "" exampleCopies) 3) = Some "akismet"
  ∧ disable (taskUpdateOf (enqueue 1 "" exampleCopies) 3) = true.
Proof.
  assert (taskUpdateOf (enqueue 1 "" exampleCopies) 3 ∈ taskUpdates exampleCopiesCard)
    as Hin.
  { do 2 apply list_elem_of_further. apply list_elem_of_here. }
  split_and!; [reflexivity|reflexivity|exact Hin|reflexivity|].
  exact (enqueue_disables_rows_with_slug 1 "" exampleCopies "akismet"
           exampleCopiesCard _ eq_refl eq_refl Hin eq_refl).
Defined.
End more_examples.

Section status_examples.

(** A theme whose update request succeeded and nullified [update]. *)
Lemma theme_completed_example :
  httpState (exampleHttp "theme-update-7-dara") = "success"
  ∧ themeUpdateIsNull (exampleHttp "theme-update-7-dara") = true
  ∧ getStatusForTheme exampleHttp 7 (Some "dara") = Some "completed".
Proof.
  pose proof (getStatusForTheme_iff exampleHttp 7 (Some "dara")) as H.
  simpl in H. destruct H as (_ & [_ Hdone] & _).
  split_and!; [reflexivity..|]. apply Hdone. split; reflexivity.
Defined.

(** The theme of the example site, after its request was stored as
    pending. *)
Lemma theme_request_example :
  type (exampleStore 2) ≠ "core" ∧ type (exampleStore 2) ≠ "plugin"
  ∧ requestKey (updateSingleRequest exampleStore (exampleProps [1]) 2)
    = Some "theme-update-7-dara"
  ∧ getStatusForTheme
      (withHttpData "theme-update-7-dara"
                    {| httpState := "pending"; themeUpdateIsNull := false |}
                    exampleHttp) 7 (Some "dara")
    = Some "inProgress".
Proof.
  assert (type (exampleStore 2) ≠ "core") as H1 by discriminate.
  assert (type (exampleStore 2) ≠ "plugin") as H2 by discriminate.
  split_and!; [exact H1|exact H2|reflexivity|].
  exact (proj1 (theme_status_follows_request exampleHttp exampleStore
                  (exampleProps [1]) 2 "theme-update-7-dara"
                  {| httpState := "pending"; themeUpdateIsNull := false |}
                  H1 H2 eq_refl)).
Defined.

(** Core and the plugin of the example site. *)
Lemma core_request_example :
  type (exampleStore 0) = "core" ∧ type (exampleStore 1) = "plugin"
  ∧ requestKey (updateSingleRequest exampleStore (exampleProps [1]) 0)
    = Some "core-update-7"
  ∧ requestKey (updateSingleRequest exampleStore (exampleProps [1]) 1) = None.
Proof.
  destruct (core_status_follows_request
              exampleHttp exampleStore (exampleProps [1]) 0
              {| httpState := "pending"; themeUpdateIsNull := false |})
    as [Hcore _].
  destruct (core_status_follows_request
              exampleHttp exampleStore (exampleProps [1]) 1
              {| httpState := "pending"; themeUpdateIsNull := false |})
    as [_ Hplugin].
  destruct (Hcore eq_refl) as (key & Hkey & _).
  split_and!; [reflexivity|reflexivity|reflexivity|exact (proj1 (Hplugin eq_refl))].
Defined.

(** An item with the status core has after a successful request. *)
Lemma core_never_dismissed_example :
  updateStatus (heap (exampleRefreshed [5]) 5) = getStatusForCore exampleHttp 7
  ∧ dismissed (state (reconcileItem (exampleProps [3]) (exampleRefreshed [5]) 5))
    = [].
Proof.
  split; [reflexivity|].
  exact (proj1 (core_item_is_never_dismissed exampleHttp 7 (exampleProps [3])
                  (exampleRefreshed [5]) 5 eq_refl)).
Defined.

(** A plugin, a theme and two core entries. *)
Lemma mapStateToProps_example :
  length (Connect.coreWithUpdate
            (Connect.mapStateToProps (λ _ _ _, None)
               (λ _ _, Connect.mkSite "example.com" "Example") exampleHttp
               tt 7 (take 1 exampleItems) (drop 1 exampleItems) exampleCoreItems))
  = 1
  ∧ ∀ i, i ∈ Connect.coreWithUpdate
               (Connect.mapStateToProps (λ _ _ _, None)
                  (λ _ _, Connect.mkSite "example.com" "Example") exampleHttp
                  tt 7 (take 1 exampleItems) (drop 1 exampleItems) exampleCoreItems) →
         updateStatus (Connect.itemObj i) ≠ Some "completed".
Proof.
  pose proof (mapStateToProps_lists (AppState := unit) (λ _ _ _, None)
                (λ _ _, Connect.mkSite "example.com" "Example") exampleHttp
                tt 7 (take 1 exampleItems) (drop 1 exampleItems) exampleCoreItems) as H.
  cbv zeta in H. destruct H as (_ & _ & _ & _ & _ & Hlen & _ & Hcore).
  split; [exact Hlen|exact Hcore].
Defined.
End status_examples.

Section checklist_examples.
Import Checklist.

Lemma exampleServerTasks_no_url id (srv : gmap string Value) :
  exampleServerTasks !! id = Some srv → srv !! "url" = None ∧ srv !! "id" = None.
Proof.
  unfold exampleServerTasks. simpl. rewrite lookup_insert. case_decide.
  - intros [= <-]. split; reflexivity.
  - by rewrite lookup_empty.
Defined.

(** The server marks the site icon task as completed. *)
Lemma onboardingTasks_example :
  sequence !! 3 = Some "site_icon_set"
  ∧ ∃ l t, onboardingTasks exampleTranslate
             (Some {| serverTasks := Some exampleServerTasks |}) = Some l
      ∧ length l = 8
      ∧ l !! 3 = Some t
      ∧ t !! "completed" = Some (VBool true)
      ∧ is_Some (t !! "title").
Proof.
  split; [reflexivity|].
  destruct (ChecklistFacts.onboardingTasks_merges_server_data exampleTranslate
              (Some {| serverTasks := Some exampleServerTasks |})) as [_ H].
  destruct (H exampleServerTasks eq_refl) as (l & Hl & Hlen & Hall).
  destruct (Hall 3 "site_icon_set" eq_refl)
    as (t & Ht & Hsrv & _ & Htitle & _).
  exists l, t. split_and!; [exact Hl|exact Hlen|exact Ht| |exact Htitle].
  apply (Hsrv (list_to_map [("completed", VBool true)]) "completed" (VBool true));
    reflexivity.
Defined.

(** No server task carries an [id]. *)
Lemma onboardingTasks_ids_example :
  (∀ id srv, exampleServerTasks !! id = Some srv → srv !! "id" = None)
  ∧ ∃ l, onboardingTasks exampleTranslate
           (Some {| serverTasks := Some exampleServerTasks |}) = Some l
      ∧ (λ t : gmap string Value, t !! "id") <$> l
        = (λ id, Some (VString id)) <$> sequence.
Proof.
  assert (∀ id srv, exampleServerTasks !! id = Some srv → srv !! "id" = None) as Hno.
  { intros id srv Hs. exact (proj2 (exampleServerTasks_no_url id srv Hs)). }
  split; [exact Hno|].
  exact (proj1 (ChecklistFacts.onboardingTasks_ids exampleTranslate exampleServerTasks) Hno).
Defined.

(** Launching the profile-picture task on a desktop viewport. *)
Lemma launchTask_example :
  launchTask exampleReplace true exampleTask "checklist_show" "example.com"
  = Some [Track "calypso_checklist_task_start" "new_blog"
                (Some (VString "avatar_uploaded")) "checklist_show";
          Page "/me";
          RequestTour (VString "checklistUserAvatar")]
  ∧ "/me" ≠ "".
Proof.
  assert (launchTask exampleReplace true exampleTask "checklist_show" "example.com"
          = Some [Track "calypso_checklist_task_start" "new_blog"
                        (Some (VString "avatar_uploaded")) "checklist_show";
                  Page "/me";
                  RequestTour (VString "checklistUserAvatar")]) as Hl
    by (vm_compute; reflexivity).
  split; [exact Hl|].
  destruct (ChecklistFacts.launchTask_calls exampleReplace true exampleTask
              "checklist_show" "example.com" _ Hl) as (_ & _ & _ & Hpage).
  apply (Hpage "/me"). apply list_elem_of_further, list_elem_of_here.
Defined.

(** The first onboarding task launches without throwing. *)
Lemma onboarding_launch_example :
  (∀ id srv, exampleServerTasks !! id = Some srv → srv !! "url" = None)
  ∧ ∃ calls,
      launchTask exampleReplace true
        (mergeTask "site_created" (tasks exampleTranslate !! "site_created")
                   (exampleServerTasks !! "site_created"))
        "checklist_show" "example.com"
      = Some calls.
Proof.
  assert (∀ id srv, exampleServerTasks !! id = Some srv → srv !! "url" = None) as Hno.
  { intros id srv Hs. exact (proj1 (exampleServerTasks_no_url id srv Hs)). }
  split; [exact Hno|].
  destruct (ChecklistFacts.onboarding_tasks_launch exampleTranslate exampleReplace true
              exampleServerTasks
              ((λ id, mergeTask id (tasks exampleTranslate !! id)
                                (exampleServerTasks !! id)) <$> sequence)
              (mergeTask "site_created" (tasks exampleTranslate !! "site_created")
                         (exampleServerTasks !! "site_created"))
              "checklist_show" "example.com" Hno eq_refl)
    as (calls & Hcalls & _).
  { apply list_elem_of_fmap. exists "site_created".
    split; [reflexivity|apply list_elem_of_here]. }
  exists calls. exact Hcalls.
Defined.
End checklist_examples.
